(** * premadegraph: player-statistics aggregation

    A shallow embedding of the score model, the full rebuild
    ([normalizePlayersByPuuid]), the corpus import
    ([addNewPlayersFromMatches]) and the two write endpoints of the
    backend ([/api/save-match], [/api/save-player]), with the properties
    the specification states about them.

    Conventions of the embedding.
    - A JavaScript number is a binary64 floating-point number, a
      [spec_float] of the Standard Library with precision 53 and maximal
      exponent 1024; the arithmetic is that of [SpecFloat] (round to
      nearest, ties to even), with signed zeros, infinities and NaN.
    - A decimal literal [d] of the source is [lit d]: the binary64 number
      nearest to the decimal.
    - A JavaScript [Map] is an association list in insertion order, a
      [Set] a duplicate-free list in insertion order.
    - The players table is a map from the non-NULL [puuid]s to the other
      columns, and the list of the rows whose [puuid] is NULL.  A REAL
      column holds a number or NULL; SQLite stores NaN as NULL.
    - The directory of match documents is the list of its [.json] files
      in [readdirSync] order when it is read, and part of a tree of
      directories and files when it is written.
    - A match document is any JSON text.  The properties the code
      reads from a participant and [info.gameDuration] have the types of
      the match documents of the Riot API where they hold a value
      ([puuid] and the two parts of the Riot id are strings, the
      statistics and the duration are numbers); each of them may be
      missing or [null], an entry of [participants] may be [null], and
      [participants] may be any value.
    - The handlers of the server treat one request at a time. *)

From Stdlib Require Import ZArith QArith Qround Lqa SpecFloat Sorted.
From stdpp Require Import gmap strings list fin_maps.

#[local] Set Warnings "-clear-no-such-hyp".

(** ** JavaScript numbers *)

Module JsNum.

Local Open Scope Z_scope.

Definition prec : Z := 53.
Definition emax : Z := 1024.

Definition num : Type := spec_float.

Definition NaN : num := S754_nan.
Definition Infinity : num := S754_infinity false.
Definition zero : num := S754_zero false.

(** The number of an integer (exact up to 2^53). *)
Definition of_Z (z : Z) : num := binary_normalize prec emax z 0 false.

Definition of_nat (n : nat) : num := of_Z (Z.of_nat n).

Definition nadd (a b : num) : num := SFadd prec emax a b.
Definition nsub (a b : num) : num := SFsub prec emax a b.
Definition nmul (a b : num) : num := SFmul prec emax a b.
Definition ndiv (a b : num) : num := SFdiv prec emax a b.

(** The number a decimal literal denotes: the quotient of two integers
    that binary64 holds exactly, rounded once. *)
Definition lit (q : Q) : num := ndiv (of_Z (Qnum q)) (of_Z (Zpos (Qden q))).

(** [a <= b], [a < b], [a >= b], [a > b]; every comparison with NaN is
    false. *)
Definition nle (a b : num) : bool := SFleb a b.
Definition nlt (a b : num) : bool := SFltb a b.
Definition nge (a b : num) : bool := SFleb b a.
Definition ngt (a b : num) : bool := SFltb b a.

(** [Math.round]: the integer nearest to [a], a tie going towards
    +Infinity; computed on the exact value [±m * 2^e] of [a]. *)
Definition math_round (a : num) : num :=
  match a with
  | S754_finite s m e =>
      if 0 <=? e then a
      else binary_normalize prec emax
             ((2 * cond_Zopp s (Zpos m) + 2 ^ (- e)) / 2 ^ (1 - e)) 0 s
  | _ => a
  end.

(** Truthiness of a number: the zeros and NaN are falsy. *)
Definition truthy (a : num) : bool :=
  match a with
  | S754_zero _ | S754_nan => false
  | _ => true
  end.

Definition is_finite (a : num) : bool :=
  match a with
  | S754_zero _ | S754_finite _ _ _ => true
  | _ => false
  end.

(** The exact value of a finite number. *)
Definition to_Q (a : num) : Q :=
  match a with
  | S754_finite s m e => (inject_Z (cond_Zopp s (Zpos m)) * Qpower 2 e)%Q
  | _ => 0%Q
  end.

(** The place of a number in the order of the comparisons: the sign
    class, then exponent and mantissa; NaN has none. *)
Definition rank (x : num) : option (Z * Z * Z) :=
  match x with
  | S754_nan => None
  | S754_infinity true => Some (-2, 0, 0)
  | S754_finite true m e => Some (-1, - e, - Zpos m)
  | S754_zero _ => Some (0, 0, 0)
  | S754_finite false m e => Some (1, e, Zpos m)
  | S754_infinity false => Some (2, 0, 0)
  end.

Definition lex_compare (a b : Z * Z * Z) : comparison :=
  match a, b with
  | (c1, e1, m1), (c2, e2, m2) =>
      match c1 ?= c2 with
      | Eq => match e1 ?= e2 with
              | Eq => m1 ?= m2
              | c => c
              end
      | c => c
      end
  end.

End JsNum.

Import JsNum.

(** ** Score model ([normalizeOpScore]) *)

Module Score.

Local Open Scope Q_scope.

Record threshold : Type := { score : num; grade : num }.

Definition thresholds : list threshold :=
  [ {| score := lit 1252.11; grade := lit 10.0 |};
    {| score := lit 874.65;  grade := lit 9.0 |};
    {| score := lit 751.02;  grade := lit 8.0 |};
    {| score := lit 675.50;  grade := lit 7.0 |};
    {| score := lit 600;     grade := lit 6.0 |};
    {| score := lit 512.91;  grade := lit 5.0 |};
    {| score := lit 424.93;  grade := lit 4.0 |};
    {| score := lit 350;     grade := lit 3.0 |};
    {| score := lit 280;     grade := lit 2.0 |};
    {| score := lit 220;     grade := lit 1.0 |};
    {| score := lit 146.92;  grade := lit 0.0 |} ].

(** The body of the [if] inside the loop: interpolate between [lower]
    and [upper], then round to two decimals. *)
Definition interpolate (rawOpScore : num) (upper lower : threshold) : num :=
  let scoreRange := nsub (score upper) (score lower) in
  let gradeRange := nsub (grade upper) (grade lower) in
  let scoreOffset := nsub rawOpScore (score lower) in
  let interpolatedGrade :=
    nadd (grade lower) (nmul (ndiv scoreOffset scoreRange) gradeRange) in
  ndiv (math_round (nmul interpolatedGrade (lit 100))) (lit 100).

(** The [for] loop over [i = 0 .. length - 2], with [upper = ts[i]] and
    [lower = ts[i+1]]; [None] when the loop ends without returning. *)
Fixpoint interpolate_loop (rawOpScore : num) (ts : list threshold) : option num :=
  match ts with
  | upper :: ((lower :: _) as rest) =>
      if nle rawOpScore (score upper) && ngt rawOpScore (score lower)
      then Some (interpolate rawOpScore upper lower)
      else interpolate_loop rawOpScore rest
  | _ => None
  end.

Definition normalizeOpScore (rawOpScore : num) : num :=
  if nge rawOpScore (lit 1252.11) then lit 10.0
  else if nle rawOpScore (lit 146.92) then lit 0.0
  else match interpolate_loop rawOpScore thresholds with
       | Some g => g
       | None => lit 0.0
       end.

End Score.

(** ** Match documents *)

Module Corpus.

(** The value of a property of a parsed JSON object: [undefined] when
    the property is missing, [null], or a value of the type the match
    documents give it. *)
Inductive js (A : Type) : Type :=
| Undefined
| Null
| Value (a : A).

Arguments Undefined {A}.
Arguments Null {A}.
Arguments Value {A} a.

#[global] Instance js_eq_dec {A : Type} `{EqDecision A} : EqDecision (js A).
Proof. solve_decision. Defined.

(** One entry of [info.participants] that is not [null].  An entry
    that is a number, a string or a boolean has no property: all its
    fields are [Undefined]. *)
Record participant : Type := {
  puuid : js string;
  riotIdGameName : js string;
  riotIdTagline : js string;
  kills : js num;
  deaths : js num;
  assists : js num;
  goldEarned : js num;
  visionScore : js num
}.

(** The value of [info.participants]. *)
Inductive participants_value : Type :=
| NoParticipants   (* undefined, null, false or 0: falsy, not iterable *)
| EmptyText        (* the empty string: falsy, iterable, no entry *)
| NotIterable      (* truthy and not iterable: a number, true, an object *)
| Entries (entries : list (option participant)).
                   (* an array (or a non-empty string) and its entries,
                      [None] for an entry that is [null] *)

(** [data.info] when it is truthy: the duration in seconds and the
    participants. *)
Record match_info : Type := {
  gameDuration : js num;
  participants : participants_value
}.

(** What [JSON.parse(fs.readFileSync(file))] gives for one file. *)
Inductive document : Type :=
| Unparseable                          (* JSON.parse throws a SyntaxError *)
| JsonNull                             (* the document is the value null *)
| JsonValue (info : option match_info). (* any other value, with its [info]
                                           when that is truthy *)

(** The [.json] files of the match directory, by name. *)
Definition corpus : Type := list (string * document).

(** [!key] is false: the key is a non-empty string. *)
Definition key_string (k : js string) : option string :=
  match k with
  | Value s => if String.eqb s "" then None else Some s
  | _ => None
  end.

(** The value SQLite binds for a key: NULL ([None]) for [undefined] and
    [null]. *)
Definition key_column (k : js string) : option string :=
  match k with
  | Value s => Some s
  | _ => None
  end.

(** [x || d] on a string property. *)
Definition str_or (x : js string) (d : string) : string :=
  match x with
  | Value s => if String.eqb s "" then d else s
  | _ => d
  end.

(** [x || 0] on a numeric property. *)
Definition num_or_zero (x : js num) : num :=
  match x with
  | Value v => if truthy v then v else zero
  | _ => zero
  end.

(** The numeric value of a property in an arithmetic expression:
    [undefined] converts to NaN and [null] to 0. *)
Definition to_number (x : js num) : num :=
  match x with
  | Undefined => NaN
  | Null => zero
  | Value v => v
  end.

(** [${x}] in a template literal. *)
Definition template (x : js string) : string :=
  match x with
  | Undefined => "undefined"
  | Null => "null"
  | Value s => s
  end.

(** Whether [!info.participants] is false. *)
Definition has_participants (ps : participants_value) : bool :=
  match ps with
  | NoParticipants | EmptyText => false
  | NotIterable | Entries _ => true
  end.

(** What a [for ... of] over [info.participants] iterates; [None] when
    the value is not iterable and the loop throws. *)
Definition iterate (ps : participants_value) : option (list (option participant)) :=
  match ps with
  | NoParticipants | NotIterable => None
  | EmptyText => Some []
  | Entries entries => Some entries
  end.

End Corpus.

Import Corpus.

(** ** The players table of playersrefined.db *)

Module Store.

(** The columns of a row besides the key [puuid].  [names] is the list
    whose JSON text the column holds; a REAL column and [country] are
    [None] for NULL. *)
Record row : Type := {
  names : list string;
  feedscore : option num;
  opscore : option num;
  country : option string;
  match_count : nat
}.

(** The table: the rows with a puuid, by puuid, and the rows whose puuid
    is NULL. *)
Record table : Type := {
  keyed : gmap string row;
  unkeyed : list row
}.

Definition empty : table := {| keyed := ∅; unkeyed := [] |}.

(** What a REAL column holds after a number is bound to it: NaN is
    stored as NULL, and a zero of either sign is stored as the integer 0
    and read as +0. *)
Definition sql_real (x : num) : option num :=
  match x with
  | S754_nan => None
  | S754_zero _ => Some zero
  | _ => Some x
  end.

(** [UPDATE players SET opscore = 0, feedscore = 0, match_count = 0]
    on one row. *)
Definition reset_scores (r : row) : row :=
  {| names := names r;
     feedscore := Some zero;
     opscore := Some zero;
     country := country r;
     match_count := 0 |}.

(** The same [UPDATE], [WHERE 1=1]: on every row. *)
Definition reset_table (t : table) : table :=
  {| keyed := reset_scores <$> keyed t;
     unkeyed := reset_scores <$> unkeyed t |}.

(** [INSERT OR REPLACE INTO players] with a string key: the row of the
    key is replaced. *)
Definition insert_or_replace (k : string) (r : row) (t : table) : table :=
  {| keyed := <[k := r]> (keyed t); unkeyed := unkeyed t |}.

(** [INSERT INTO players]: a NULL key adds a row; a taken key is a
    constraint failure and the stored row stays. *)
Definition insert_new (k : option string) (r : row) (t : table) : table :=
  match k with
  | None => {| keyed := keyed t; unkeyed := unkeyed t ++ [r] |}
  | Some k =>
      match keyed t !! k with
      | Some _ => t
      | None => {| keyed := <[k := r]> (keyed t); unkeyed := unkeyed t |}
      end
  end.

(** Sum of [match_count] over the rows of the table. *)
Definition total_match_count (t : table) : nat :=
  sum_list_with (fun kr => match_count (snd kr)) (map_to_list (keyed t))
  + sum_list_with match_count (unkeyed t).

End Store.

(** ** Full rebuild ([normalizePlayersByPuuid]) *)

Module Rebuild.

Local Open Scope Q_scope.

(** A value of [playersMap]. *)
Record aggregate : Type := {
  names : list string;
  feedscoreSum : num;
  opscoreSum : num;
  match_count : nat;
  country : option string
}.

(** [playersMap]: a [Map] in insertion order. *)
Definition players_map : Type := list (string * aggregate).

Fixpoint map_get (k : string) (m : players_map) : option aggregate :=
  match m with
  | [] => None
  | (k', v) :: rest => if String.eqb k k' then Some v else map_get k rest
  end.

(** In-place mutation of the object stored under [k]. *)
Fixpoint map_mutate (f : aggregate -> aggregate) (k : string) (m : players_map)
  : players_map :=
  match m with
  | [] => []
  | (k', v) :: rest =>
      if String.eqb k k' then (k', f v) :: rest
      else (k', v) :: map_mutate f k rest
  end.

(** [set.add(x)] on a [Set] of strings. *)
Definition set_add (x : string) (s : list string) : list string :=
  if bool_decide (x ∈ s) then s else s ++ [x].

Inductive log_event : Type :=
| WarnInvalidStructure (file : string)
| WarnMissingPuuid (file : string)
| ErrorProcessingFile (file : string).

Record state : Type := {
  playersMap : players_map;
  totalMatches : nat;
  totalPlayers : nat;
  console : list log_event
}.

Definition initial : state :=
  {| playersMap := []; totalMatches := 0; totalPlayers := 0; console := [] |}.

Definition display_name (p : participant) : string :=
  str_or (riotIdGameName p) "Unknown" +:+ "#" +:+ str_or (riotIdTagline p) "Unknown".

Definition feedscore_of (p : participant) : num :=
  let kills := num_or_zero (kills p) in
  let deaths := num_or_zero (deaths p) in
  let assists := num_or_zero (assists p) in
  nsub deaths (nmul (nadd kills assists) (lit 0.35)).

Definition rawOpScore_of (gameDurationMinutes : num) (p : participant) : num :=
  let kills := num_or_zero (kills p) in
  let assists := num_or_zero (assists p) in
  let goldEarned := num_or_zero (goldEarned p) in
  let visionScore := num_or_zero (visionScore p) in
  nadd (nadd (nadd kills (nmul assists (lit 0.965)))
             (ndiv goldEarned gameDurationMinutes))
       (nmul visionScore (lit 0.15)).

Definition merge (name : string) (feedscore rawOpScore : num) (player : aggregate)
  : aggregate :=
  {| names := set_add name (names player);
     feedscoreSum := nadd (feedscoreSum player) feedscore;
     opscoreSum := nadd (opscoreSum player) rawOpScore;
     match_count := match_count player + 1;
     country := country player |}.

Definition log (e : log_event) (st : state) : state :=
  {| playersMap := playersMap st;
     totalMatches := totalMatches st;
     totalPlayers := totalPlayers st;
     console := console st ++ [e] |}.

Definition count_match (st : state) : state :=
  {| playersMap := playersMap st;
     totalMatches := totalMatches st + 1;
     totalPlayers := totalPlayers st;
     console := console st |}.

(** The body of the loop over [data.info.participants], for an entry
    that is an object. *)
Definition process_participant (file : string) (gameDurationMinutes : num)
    (st : state) (p : participant) : state :=
  match key_string (puuid p) with
  | None => log (WarnMissingPuuid file) st
  | Some puuid =>
      let name := display_name p in
      let feedscore := feedscore_of p in
      let rawOpScore := rawOpScore_of gameDurationMinutes p in
      match map_get puuid (playersMap st) with
      | None =>
          {| playersMap :=
               playersMap st ++
               [(puuid,
                 {| names := [name];
                    feedscoreSum := feedscore;
                    opscoreSum := rawOpScore;
                    match_count := 1;
                    country := None |})];
             totalMatches := totalMatches st;
             totalPlayers := totalPlayers st + 1;
             console := console st |}
      | Some _ =>
          {| playersMap :=
               map_mutate (merge name feedscore rawOpScore) puuid (playersMap st);
             totalMatches := totalMatches st;
             totalPlayers := totalPlayers st;
             console := console st |}
      end
  end.

(** The loop over the entries; it stops at an entry that is [null],
    where [p.puuid] throws: the state reached and whether it threw. *)
Fixpoint process_entries (file : string) (gameDurationMinutes : num)
    (st : state) (entries : list (option participant)) : state * bool :=
  match entries with
  | [] => (st, false)
  | None :: _ => (st, true)
  | Some p :: rest =>
      process_entries file gameDurationMinutes
                      (process_participant file gameDurationMinutes st p) rest
  end.

(** The body of the loop over the files, with its [try]/[catch]: an
    exception leaves the state as it is where it is thrown and logs the
    file. *)
Definition process_file (st : state) (f : string * document) : state :=
  let (file, data) := f in
  match data with
  | Unparseable => log (ErrorProcessingFile file) st
  | JsonNull => log (ErrorProcessingFile file) st
  | JsonValue None => log (WarnInvalidStructure file) st
  | JsonValue (Some info) =>
      if negb (has_participants (participants info)) then
        log (WarnInvalidStructure file) st
      else
        let gameDurationSeconds := to_number (gameDuration info) in
        let gameDurationMinutes := ndiv gameDurationSeconds (lit 60) in
        match iterate (participants info) with
        | None => log (ErrorProcessingFile file) (count_match st)
        | Some entries =>
            let (st', threw) :=
              process_entries file gameDurationMinutes (count_match st) entries in
            if threw then log (ErrorProcessingFile file) st' else st'
        end
  end.

Definition aggregate_corpus (files : corpus) : state :=
  foldl process_file initial files.

(** The row written for one entry of [playersMap]. *)
Definition final_row (data : aggregate) : Store.row :=
  let avgFeed := ndiv (feedscoreSum data) (of_nat (match_count data)) in
  let avgRawOp := ndiv (opscoreSum data) (of_nat (match_count data)) in
  let normalizedOp := Score.normalizeOpScore avgRawOp in
  {| Store.names := names data;
     Store.feedscore := Store.sql_real avgFeed;
     Store.opscore := Store.sql_real normalizedOp;
     Store.country := country data;
     Store.match_count := match_count data |}.

(** The loop [for (const [puuid, data] of playersMap)] of inserts. *)
Definition write_players (m : players_map) (db : Store.table) : Store.table :=
  foldl (fun d e => Store.insert_or_replace (fst e) (final_row (snd e)) d) db m.

(** The table after the run: the reset, then the inserts. *)
Definition normalizePlayersByPuuid (files : corpus) (db : Store.table) : Store.table :=
  write_players (playersMap (aggregate_corpus files)) (Store.reset_table db).

(** The counts of the line "Processed N matches and found M unique
    players". *)
Definition summary (st : state) : nat * nat :=
  (totalMatches st, totalPlayers st).

End Rebuild.

(** ** Import of new players ([addNewPlayersFromMatches]) *)

Module AddNew.

Local Open Scope Q_scope.

(** The state of the loop: the values given to the [Set]
    [existingPuuids], the [stmt.run] calls made so far (they are queued:
    the statements run only after the loop has returned), and the
    counter. *)
Record state : Type := {
  existingPuuids : list (js string);
  queue : list (js string * Store.row);
  newPlayerCount : nat
}.

(** How the loop over the files ended: it ran to the end, or an
    exception left it (nothing catches it in this script, the process
    ends). *)
Inductive outcome : Type :=
| Completed
| Thrown (file : string).

(** [new Set(rows.map(r => r.puuid))]: the keys, and [null] for a row
    whose puuid is NULL. *)
Definition start (table : Store.table) : state :=
  {| existingPuuids :=
       (Value <$> (fst <$> map_to_list (Store.keyed table)))
       ++ ((fun _ => Null) <$> Store.unkeyed table);
     queue := [];
     newPlayerCount := 0 |}.

Definition new_row (p : participant) : Store.row :=
  let name := template (riotIdGameName p) +:+ "#" +:+ template (riotIdTagline p) in
  let feedscore :=
    nsub (to_number (deaths p))
         (nmul (nadd (to_number (kills p)) (to_number (assists p))) (lit 0.35)) in
  let opscore :=
    nadd (nadd (nadd (to_number (kills p)) (nmul (to_number (assists p)) (lit 0.965)))
               (ndiv (to_number (goldEarned p)) (lit 560)))
         (nmul (to_number (visionScore p)) (lit 0.15)) in
  {| Store.names := [name];
     Store.feedscore := Store.sql_real feedscore;
     Store.opscore := Store.sql_real opscore;
     Store.country := Some " ";
     Store.match_count := 1 |}.

(** The body of the loop over [data.info.participants], for an entry
    that is an object. *)
Definition process_participant (st : state) (p : participant) : state :=
  if bool_decide (puuid p ∈ existingPuuids st) then st
  else
    {| existingPuuids := existingPuuids st ++ [puuid p];
       queue := queue st ++ [(puuid p, new_row p)];
       newPlayerCount := newPlayerCount st + 1 |}.

(** The loop over the entries; it stops at a [null] entry, where
    [p.puuid] throws. *)
Fixpoint process_entries (st : state) (entries : list (option participant))
  : state * bool :=
  match entries with
  | [] => (st, false)
  | None :: _ => (st, true)
  | Some p :: rest => process_entries (process_participant st p) rest
  end.

(** [data.info.participants] of a parsed file when the loop can start;
    [None] where the evaluation throws (a syntax error, a property of
    [null] or of [undefined], iterating [undefined] or a value that is
    not iterable). *)
Definition entries_of (data : document) : option (list (option participant)) :=
  match data with
  | JsonValue (Some info) => iterate (participants info)
  | _ => None
  end.

(** The loop over the files. *)
Fixpoint process_files (files : corpus) (st : state) : state * outcome :=
  match files with
  | [] => (st, Completed)
  | (file, data) :: rest =>
      match entries_of data with
      | None => (st, Thrown file)
      | Some entries =>
          let (st', threw) := process_entries st entries in
          if threw then (st', Thrown file) else process_files rest st'
      end
  end.

(** The queued inserts, run in order. *)
Definition run_queue (q : list (js string * Store.row)) (table : Store.table)
  : Store.table :=
  foldl (fun t e => Store.insert_new (key_column (fst e)) (snd e) t) table q.

Record result : Type := {
  table_after : Store.table;
  final : state;
  how : outcome
}.

(** The run: when the loop throws, the process ends before any queued
    statement has run and the table is as it was. *)
Definition addNewPlayersFromMatches (files : corpus) (table : Store.table) : result :=
  let (st, out) := process_files files (start table) in
  {| table_after :=
       match out with
       | Completed => run_queue (queue st) table
       | Thrown _ => table
       end;
     final := st;
     how := out |}.

End AddNew.

(** ** The file system under the match directory *)

Module Fs.











End Fs.

(** ** The backend endpoints *)

Module Server.

Local Open Scope Q_scope.

Record response : Type := { status : nat; message : string }.

(** *** POST /api/save-match *)




(** *** POST /api/save-player *)

(** A row of the players table of players.db.  This endpoint never
    writes the [puuid] column, so its rows carry a NULL key and the
    table is the list of its rows in insertion order; [names] holds one
    display name; a score, the country or the count is [None] for
    NULL. *)
Record row : Type := {
  names : string;
  feedscore : option num;
  opscore : option num;
  country : option string;
  match_count : option nat
}.

Record player_body : Type := {
  name : string;                (* empty when missing *)
  p_feedscore : option num;
  p_opscore : option num;
  p_country : option string
}.

(** The body the match form posts for one participant
    ([minimalPlayer] in MatchAnalysisForm.tsx); it carries no puuid. *)
(** A number through [JSON.stringify] and the body parser: NaN and the
    infinities arrive as [null], a zero arrives as +0. *)
Definition json_number (x : num) : option num :=
  match x with
  | S754_zero _ => Some zero
  | S754_finite _ _ _ => Some x
  | _ => None
  end.

Definition minimalPlayer (p : participant) : player_body :=
  {| name := str_or (riotIdGameName p) "?" +:+ "#" +:+ str_or (riotIdTagline p) "?";
     p_feedscore :=
       json_number
         (nsub (to_number (deaths p))
               (nmul (nadd (to_number (kills p)) (to_number (assists p))) (lit 0.5)));
     p_opscore :=
       json_number
         (nadd (nadd (to_number (kills p)) (nmul (to_number (assists p)) (lit 0.965)))
               (ndiv (to_number (goldEarned p)) (lit 500)));
     p_country := Some "Unknown" |}.

(** [parseFloat] of a property of the body: [None] stands for a
    value of which [parseFloat] makes NaN ([undefined], [null], a text
    that starts with no number). *)
Definition parseFloat (x : option num) : num :=
  match x with
  | Some v => v
  | None => NaN
  end.

(** The number a score read from a row is in a product: [null]
    converts to 0. *)
Definition read_real (x : option num) : num :=
  match x with
  | Some v => v
  | None => zero
  end.

(** [row.match_count || 1]: NULL and 0 give 1. *)
Definition count_or_one (x : option nat) : nat :=
  match x with
  | Some (S n) => S n
  | _ => 1%nat
  end.

(** [db.get("SELECT * FROM players WHERE names = ?")]: the first match. *)
Definition select_by_name (n : string) (table : list row) : option row :=
  List.find (fun r => String.eqb (names r) n) table.

(** [UPDATE players SET feedscore, opscore, country, match_count
    WHERE names = ?]. *)
Definition update_by_name (n : string) (f o : num) (c : option string) (k : nat)
    (table : list row) : list row :=
  List.map (fun r =>
              if String.eqb (names r) n
              then {| names := names r;
                      feedscore := Store.sql_real f;
                      opscore := Store.sql_real o;
                      country := c;
                      match_count := Some k |}
              else r) table.

Definition save_player (player : player_body) (table : list row)
  : list row * response :=
  if String.eqb (name player) "" then
    (table, {| status := 400; message := "Missing player name" |})
  else
    match select_by_name (name player) table with
    | Some row =>
        let oldCount := count_or_one (match_count row) in
        let newCount := (oldCount + 1)%nat in
        let newFeedscore :=
          ndiv (nadd (nmul (read_real (feedscore row)) (of_nat oldCount))
                     (parseFloat (p_feedscore player)))
               (of_nat newCount) in
        let newOpscore :=
          ndiv (nadd (nmul (read_real (opscore row)) (of_nat oldCount))
                     (parseFloat (p_opscore player)))
               (of_nat newCount) in
        (update_by_name (name player) newFeedscore newOpscore
                        (p_country player) newCount table,
         {| status := 200; message := "Player updated successfully" |})
    | None =>
        (table ++ [ {| names := name player;
                       feedscore := Store.sql_real (parseFloat (p_feedscore player));
                       opscore := Store.sql_real (parseFloat (p_opscore player));
                       country := p_country player;
                       match_count := Some 1%nat |} ],
         {| status := 200; message := "Player inserted successfully" |})
    end.

End Server.

(** ** The score model as the specification words it *)

Module ScoreSpec.

Local Open Scope Q_scope.

(** The eleven anchors, raw score and grade. *)
Definition anchors : list (Q * Q) :=
  [ (1252.11, 10.0); (874.65, 9.0); (751.02, 8.0); (675.50, 7.0);
    (600, 6.0); (512.91, 5.0); (424.93, 4.0); (350, 3.0); (280, 2.0);
    (220, 1.0); (146.92, 0.0) ].

(** Linear interpolation of the grade between two anchors, on exact
    numbers. *)
Definition lerp (lower upper : Q * Q) (raw : Q) : Q :=
  snd lower + (raw - fst lower) / (fst upper - fst lower) * (snd upper - snd lower).

(** Rounding to two decimal places (ties upwards), on exact numbers. *)
Definition round2 (x : Q) : Q :=
  inject_Z (Qfloor (x * 100 + (1 # 2))) / 100.

Definition to_threshold (a : Q * Q) : Score.threshold :=
  {| Score.score := lit (fst a); Score.grade := lit (snd a) |}.

(** Scores strictly decrease along the list. *)
Definition decreasing (l : list Score.threshold) : Prop :=
  StronglySorted (fun a b => nlt (Score.score b) (Score.score a) = true) l.

End ScoreSpec.

(** ** What a run over a corpus observes *)

Module Observed.

(** The entries the loop of the full rebuild iterates, when the
    document has [info] and [info.participants] and the latter is an
    array. *)
Definition iterated (data : document) : option (list (option participant)) :=
  match data with
  | JsonValue (Some info) =>
      if has_participants (participants info) then iterate (participants info)
      else None
  | _ => None
  end.

(** The entries handled before the first [null] entry. *)
Fixpoint processed (entries : list (option participant)) : list participant :=
  match entries with
  | Some p :: rest => p :: processed rest
  | _ => []
  end.

(** A document passes the shape check of the full rebuild: it parses
    and has [info] and [info.participants]. *)
Definition shaped (f : string * document) : bool :=
  match snd f with
  | JsonValue (Some info) => has_participants (participants info)
  | _ => false
  end.

(** A document the full rebuild handles without an exception: its
    participants are an array of objects. *)
Definition clean (f : string * document) : bool :=
  match iterated (snd f) with
  | Some entries => forallb (fun e => bool_decide (is_Some e)) entries
  | None => false
  end.

Definition has_puuid (p : participant) : bool :=
  match key_string (puuid p) with
  | Some _ => true
  | None => false
  end.

Definition observation (p : participant) : option (string * string) :=
  match key_string (puuid p) with
  | Some k => Some (k, Rebuild.display_name p)
  | None => None
  end.

(** The (puuid, display name) pairs the full rebuild sees, in order. *)
Definition observations_of (f : string * document) : list (string * string) :=
  match iterated (snd f) with
  | Some entries => omap observation (processed entries)
  | None => []
  end.

Definition observations (files : corpus) : list (string * string) :=
  files ≫= observations_of.

(** The number of observations of one puuid. *)
Definition occurrences (k : string) (obs : list (string * string)) : nat :=
  length (filter (fun o => fst o = k) obs).

(** A valid match document: ten participants, each with a puuid. *)
Definition valid_match (f : string * document) : Prop :=
  exists ps, iterated (snd f) = Some (Some <$> ps) /\
             length ps = 10 /\
             Forall (fun p => has_puuid p = true) ps.

(** Sum of [match_count] over the aggregates of [playersMap]. *)
Definition sum_match_count (m : Rebuild.players_map) : nat :=
  sum_list_with (fun e => Rebuild.match_count (snd e)) m.

(** The console lines that report a document: a skipped one, or one
    whose processing threw. *)
Definition is_skip (e : Rebuild.log_event) : bool :=
  match e with
  | Rebuild.WarnInvalidStructure _ | Rebuild.ErrorProcessingFile _ => true
  | Rebuild.WarnMissingPuuid _ => false
  end.

(** What [playersMap] holds after the observations [obs]: one entry per
    observed puuid, counting its observations and collecting its
    names. *)
Definition aggregates (obs : list (string * string)) (m : Rebuild.players_map)
  : Prop :=
  NoDup (fst <$> m) /\
  (forall k, Rebuild.map_get k m = None <-> k ∉ fst <$> obs) /\
  (forall k a, Rebuild.map_get k m = Some a ->
     Rebuild.match_count a = occurrences k obs /\
     (forall n, n ∈ Rebuild.names a <-> (k, n) ∈ obs) /\
     NoDup (Rebuild.names a) /\
     Rebuild.country a = None).

(** The number of such lines on the console. *)
Definition skips (st : Rebuild.state) : nat :=
  length (filter is_skip (Rebuild.console st)).

(** The state of a run without its console. *)
Definition core (st : Rebuild.state)
  : Rebuild.players_map * nat * nat :=
  (Rebuild.playersMap st, Rebuild.totalMatches st, Rebuild.totalPlayers st).

End Observed.

(** ** Invariants of the stored tables *)

Module Invariants.

(** What a run of [addNewPlayersFromMatches] over [table] has done when
    its loop is in state [st]: the set holds the keys of the table and
    the keys of the queued inserts, which are new, pairwise different,
    and carry the count 1 and the placeholder country. *)
Definition imported (table : Store.table) (st : AddNew.state) : Prop :=
  AddNew.existingPuuids st
  = AddNew.existingPuuids (AddNew.start table) ++ (fst <$> AddNew.queue st) /\
  NoDup (fst <$> AddNew.queue st) /\
  (forall k r, (k, r) ∈ AddNew.queue st ->
     (k ∉ AddNew.existingPuuids (AddNew.start table)) /\
     Store.match_count r = 1 /\
     Store.country r = Some " ") /\
  AddNew.newPlayerCount st = length (AddNew.queue st).

(** The string keys of a queue of inserts, and the rows it inserts
    with a NULL key. *)
Definition queued_keys (q : list (js string * Store.row)) : list string :=
  omap (fun e => key_column (fst e)) q.

Definition queued_unkeyed (q : list (js string * Store.row)) : list Store.row :=
  snd <$> filter (fun e => key_column (fst e) = None) q.

(** The tables [/api/save-player] produces: one row per display name,
    each with a positive match count. *)
Definition upserted (table : list Server.row) : Prop :=
  NoDup (Server.names <$> table) /\
  Forall (fun r => exists c, Server.match_count r = Some c /\ 1 <= c) table.

(** The running average of the specification. *)
Definition running_average (oldAverage : num) (oldCount : nat) (newValue : num) : num :=
  ndiv (nadd (nmul oldAverage (of_nat oldCount)) newValue) (of_nat (oldCount + 1)).

End Invariants.

(** ** Sample inputs *)

Module Examples.

Local Open Scope Q_scope.

Definition sample (id game tag : string) : participant :=
  {| puuid := Value id;
     riotIdGameName := Value game;
     riotIdTagline := Value tag;
     kills := Value (lit 5);
     deaths := Value (lit 3);
     assists := Value (lit 7);
     goldEarned := Value (lit 12000);
     visionScore := Value (lit 20) |}.

Definition nine_others : list participant :=
  [ sample "p1" "Bob" "EUW"; sample "p2" "Cleo" "EUW"; sample "p3" "Dan" "EUW";
    sample "p4" "Eve" "EUW"; sample "p5" "Finn" "EUW"; sample "p6" "Gus" "EUW";
    sample "p7" "Hana" "EUW"; sample "p8" "Ivo" "EUW"; sample "p9" "Jun" "EUW" ].

Definition match_of (seconds : Q) (entries : list (option participant)) : document :=
  JsonValue (Some {| gameDuration := Value (lit seconds);
                     participants := Entries entries |}).

(** Two matches of thirty minutes; the player p0 appears as Alice#EUW
    in the first and as Alice#NA1 in the second. *)
Definition match_euw : string * document :=
  ("EUW1_1.json", match_of 1800 (Some <$> sample "p0" "Alice" "EUW" :: nine_others)).

Definition match_na1 : string * document :=
  ("EUW1_2.json", match_of 1800 (Some <$> sample "p0" "Alice" "NA1" :: nine_others)).

(** A match whose duration is zero. *)
Definition match_zero_duration : string * document :=
  ("EUW1_3.json", match_of 0 [Some (sample "p0" "Alice" "EUW")]).

(** A file that is not JSON. *)
Definition broken_file : string * document := ("broken.json", Unparseable).

(** A document whose second participant is [null]. *)
Definition match_null_entry : string * document :=
  ("EUW1_4.json",
   match_of 1800 [Some (sample "p0" "Alice" "EUW"); None; Some (sample "p1" "Bob" "EUW")]).

(** A document whose [participants] is a number. *)
Definition match_no_array : string * document :=
  ("EUW1_5.json",
   JsonValue (Some {| gameDuration := Value (lit 1800);
                      participants := NotIterable |})).

(** A document whose [participants] is the empty string. *)
Definition match_empty_text : string * document :=
  ("EUW1_7.json",
   JsonValue (Some {| gameDuration := Value (lit 1800);
                      participants := EmptyText |})).

(** A participant without a puuid. *)
Definition anonymous : participant :=
  {| puuid := Undefined;
     riotIdGameName := Value "Zed";
     riotIdTagline := Undefined;
     kills := Undefined;
     deaths := Undefined;
     assists := Undefined;
     goldEarned := Undefined;
     visionScore := Undefined |}.

Definition match_anonymous : string * document :=
  ("EUW1_6.json", match_of 1800 [Some anonymous]).

(** A table in which p0 has been classified. *)
Definition classified_row : Store.row :=
  {| Store.names := ["Alice#EUW"];
     Store.feedscore := Some (lit 1.5);
     Store.opscore := Some (lit 5.0);
     Store.country := Some "HU";
     Store.match_count := 3 |}.

Definition classified_table : Store.table :=
  {| Store.keyed := {[ "p0" := classified_row ]}; Store.unkeyed := [] |}.




End Examples.

(** * Properties *)

(** ** JavaScript numbers *)

Section NumFacts.

Local Open Scope Z_scope.

(** The comparisons are the lexicographic order of the ranks. *)
Lemma SFcompare_rank (x y : num) :
  SFcompare x y =
  match rank x, rank y with
  | Some a, Some b => Some (lex_compare a b)
  | _, _ => None
  end.
Proof.
  destruct x as [sx | sx | | sx mx ex], y as [sy | sy | | sy my ey];
    try destruct sx; try destruct sy; try reflexivity; simpl.
  rewrite Z.compare_opp, (Z.compare_antisym ey ex).
  destruct (ey ?= ex); reflexivity.
Qed.

Lemma nle_rank (x y : num) :
  nle x y = true <->
  exists a b, rank x = Some a /\ rank y = Some b /\ lex_compare a b <> Gt.
Proof.
  unfold nle, SFleb. rewrite SFcompare_rank.
  destruct (rank x) as [a |], (rank y) as [b |];
    try (split; [discriminate | intros (? & ? & ? & ? & ?); discriminate]).
  split.
  - intros H. exists a, b. split_and!; [done | done |]. by destruct (lex_compare a b).
  - intros (a' & b' & [= <-] & [= <-] & H). by destruct (lex_compare a b).
Qed.

Lemma nlt_rank (x y : num) :
  nlt x y = true <->
  exists a b, rank x = Some a /\ rank y = Some b /\ lex_compare a b = Lt.
Proof.
  unfold nlt, SFltb. rewrite SFcompare_rank.
  destruct (rank x) as [a |], (rank y) as [b |];
    try (split; [discriminate | intros (? & ? & ? & ? & ?); discriminate]).
  split.
  - intros H. exists a, b. split_and!; [done | done |]. by destruct (lex_compare a b).
  - intros (a' & b' & [= <-] & [= <-] & H). by rewrite H.
Qed.

Ltac lex_cases :=
  repeat match goal with
         | p : (Z * Z * Z)%type |- _ => destruct p as [[? ?] ?]
         end;
  simpl in *;
  repeat match goal with
         | |- context [?a ?= ?b] => destruct (Z.compare_spec a b)
         | H : context [?a ?= ?b] |- _ => destruct (Z.compare_spec a b)
         end;
  try lia; try congruence.

Lemma lex_le_trans (a b c : Z * Z * Z) :
  lex_compare a b <> Gt -> lex_compare b c <> Gt -> lex_compare a c <> Gt.
Proof. lex_cases. Qed.

Lemma lex_le_lt_trans (a b c : Z * Z * Z) :
  lex_compare a b <> Gt -> lex_compare b c = Lt -> lex_compare a c = Lt.
Proof. lex_cases. Qed.

Lemma lex_lt_le_trans (a b c : Z * Z * Z) :
  lex_compare a b = Lt -> lex_compare b c <> Gt -> lex_compare a c = Lt.
Proof. lex_cases. Qed.

Lemma lex_lt_not_le (a b : Z * Z * Z) :
  lex_compare a b = Lt -> lex_compare b a = Gt.
Proof. lex_cases. Qed.

Lemma nle_trans (x y z : num) :
  nle x y = true -> nle y z = true -> nle x z = true.
Proof.
  rewrite !nle_rank. intros (a & b & Ha & Hb & Hab) (b' & c & Hb' & Hc & Hbc).
  rewrite Hb in Hb'. injection Hb' as <-.
  exists a, c. split_and!; [done | done |]. by eapply lex_le_trans.
Qed.

Lemma nle_nlt_trans (x y z : num) :
  nle x y = true -> nlt y z = true -> nlt x z = true.
Proof.
  rewrite nle_rank, !nlt_rank. intros (a & b & Ha & Hb & Hab) (b' & c & Hb' & Hc & Hbc).
  rewrite Hb in Hb'. injection Hb' as <-.
  exists a, c. split_and!; [done | done |]. by eapply lex_le_lt_trans.
Qed.

Lemma nlt_nle_trans (x y z : num) :
  nlt x y = true -> nle y z = true -> nlt x z = true.
Proof.
  rewrite nle_rank, !nlt_rank. intros (a & b & Ha & Hb & Hab) (b' & c & Hb' & Hc & Hbc).
  rewrite Hb in Hb'. injection Hb' as <-.
  exists a, c. split_and!; [done | done |]. by eapply lex_lt_le_trans.
Qed.

Lemma nlt_nle (x y : num) : nlt x y = true -> nle x y = true.
Proof.
  rewrite nle_rank, nlt_rank. intros (a & b & Ha & Hb & Hab).
  exists a, b. split_and!; [done | done | congruence].
Qed.

Lemma nlt_not_nle (x y : num) : nlt x y = true -> nle y x = false.
Proof.
  intros Hlt. apply not_true_is_false. rewrite nle_rank.
  apply nlt_rank in Hlt as (a & b & Ha & Hb & Hab).
  intros (b' & a' & Hb' & Ha' & Hba).
  rewrite Hb in Hb'. rewrite Ha in Ha'. injection Hb' as <-. injection Ha' as <-.
  apply lex_lt_not_le in Hab. congruence.
Qed.

Lemma nle_not_nlt (x y : num) : nle x y = true -> nlt y x = false.
Proof.
  intros Hle. apply not_true_is_false. intros Hlt.
  apply nlt_not_nle in Hlt. congruence.
Qed.

(** A sum with an infinite or NaN operand is infinite or NaN. *)
Lemma nadd_not_finite_l (a b : num) : is_finite a = false -> is_finite (nadd a b) = false.
Proof. destruct a as [| [] | |], b as [| [] | |]; done. Qed.

Lemma nadd_not_finite_r (a b : num) : is_finite b = false -> is_finite (nadd a b) = false.
Proof. destruct a as [| [] | |], b as [| [] | |]; done. Qed.

(** A quotient by zero is infinite or NaN. *)
Lemma ndiv_zero_not_finite (a : num) (s : bool) :
  is_finite (ndiv a (S754_zero s)) = false.
Proof. by destruct a. Qed.

End NumFacts.

(** ** Score model *)

Section ScoreModel.

Local Open Scope Q_scope.
Import Score ScoreSpec.

Lemma thresholds_anchors : thresholds = to_threshold <$> anchors.
Proof. reflexivity. Qed.

Lemma thresholds_decreasing : decreasing thresholds.
Proof.
  unfold decreasing, thresholds.
  repeat (constructor; [| repeat (constructor; [vm_compute; reflexivity |]); constructor]).
  constructor.
Qed.

Lemma thresholds_range :
  Forall (fun t => nle (lit 146.92) (score t) = true /\
                   nle (score t) (lit 1252.11) = true) thresholds.
Proof.
  unfold thresholds.
  repeat (constructor; [split; vm_compute; reflexivity |]). constructor.
Qed.

(** The loop returns from the bracket that holds the input. *)
Lemma interpolate_loop_bracket (ts : list threshold) :
  decreasing ts ->
  forall (i : nat) (u l : threshold) (x : num),
    ts !! i = Some u -> ts !! S i = Some l ->
    nlt (score l) x = true -> nle x (score u) = true ->
    interpolate_loop x ts = Some (interpolate x u l).
Proof.
  induction 1 as [| a rest Hsorted IH Hall]; intros i u l x Hu Hl Hlx Hxu.
  - discriminate Hu.
  - destruct rest as [| b rest']; [destruct i; discriminate Hl |].
    cbn [interpolate_loop].
    destruct i as [| i'].
    + injection Hu as <-. injection Hl as <-.
      unfold ngt, nle, nlt in *. now rewrite Hxu, Hlx.
    + assert (Hxb : nle x (score b) = true).
      { simpl in Hu. destruct i' as [| i''].
        - by injection Hu as <-.
        - inversion Hsorted as [| ? ? _ Hb]; subst.
          rewrite Forall_forall in Hb.
          eapply nle_trans; [exact Hxu |].
          apply nlt_nle, Hb. eapply list_elem_of_lookup_2. exact Hu. }
      pose proof (nle_not_nlt _ _ Hxb) as Hf. unfold ngt, nlt in *.
      rewrite Hf, andb_false_r.
      apply (IH i' u l x); assumption.
Qed.

Lemma normalizeOpScore_clamp_above (x : num) :
  nge x (lit 1252.11) = true -> normalizeOpScore x = lit 10.0.
Proof. intros H. unfold normalizeOpScore. now rewrite H. Qed.

Lemma normalizeOpScore_clamp_below (x : num) :
  nle x (lit 146.92) = true -> normalizeOpScore x = lit 0.0.
Proof.
  intros H. unfold normalizeOpScore.
  change (nge x (lit 1252.11)) with (nle (lit 1252.11) x).
  assert (Hlt : nlt x (lit 1252.11) = true).
  { eapply nle_nlt_trans; [exact H |]. vm_compute. reflexivity. }
  now rewrite (nlt_not_nle _ _ Hlt), H.
Qed.

(** Between the clamps the loop decides, and it returns from the
    bracket [lower < raw <= upper]. *)
Lemma normalizeOpScore_bracket (i : nat) (u l : threshold) (x : num) :
  thresholds !! i = Some u -> thresholds !! S i = Some l ->
  nlt (score l) x = true -> nlt x (score u) = true ->
  normalizeOpScore x = interpolate x u l.
Proof.
  intros Hu Hl Hlx Hxu.
  pose proof thresholds_range as Hrange. rewrite Forall_forall in Hrange.
  destruct (Hrange u) as [_ Hur]; [eapply list_elem_of_lookup_2; exact Hu |].
  destruct (Hrange l) as [Hlr _]; [eapply list_elem_of_lookup_2; exact Hl |].
  unfold normalizeOpScore.
  change (nge x (lit 1252.11)) with (nle (lit 1252.11) x).
  rewrite (nlt_not_nle x (lit 1252.11)) by (eapply nlt_nle_trans; eassumption).
  rewrite (nlt_not_nle (lit 146.92) x) by (eapply nle_nlt_trans; eassumption).
  rewrite (interpolate_loop_bracket thresholds thresholds_decreasing i u l x Hu Hl Hlx)
    by (by apply nlt_nle).
  reflexivity.
Qed.

(** What the function returns on the special values. *)
Lemma normalizeOpScore_special :
  normalizeOpScore Infinity = lit 10.0 /\
  normalizeOpScore (S754_infinity true) = lit 0.0 /\
  normalizeOpScore NaN = lit 0.0.
Proof. repeat split; vm_compute; reflexivity. Qed.

(** C1, as the code has it.  [normalizeOpScore] clamps an input at or
    above 1252.11 to 10.0 and one at or below 146.92 to 0.0; its table
    is the eleven anchors of the specification and it returns the paired
    grade at each anchor score; for an input strictly between two
    adjacent anchors it returns what the loop body computes from these
    two anchors in binary64 arithmetic: the interpolated grade, times
    100, rounded by [Math.round], over 100; the sample values 424.93,
    1252.11, 146.92, 2000 and 0 give 4.0, 10.0, 0.0, 10.0 and 0.0, and
    468.92 gives 4.5, strictly between 4.0 and 5.0. *)
Theorem normalizeOpScore_piecewise :
  (forall x : num, nge x (lit 1252.11) = true -> normalizeOpScore x = lit 10.0) /\
  (forall x : num, nle x (lit 146.92) = true -> normalizeOpScore x = lit 0.0) /\
  thresholds = (to_threshold <$> anchors) /\
  (forall t : threshold, t ∈ thresholds -> normalizeOpScore (score t) = grade t) /\
  (forall (i : nat) (u l : threshold) (x : num),
     thresholds !! i = Some u -> thresholds !! S i = Some l ->
     nlt (score l) x = true -> nlt x (score u) = true ->
     normalizeOpScore x = interpolate x u l) /\
  (normalizeOpScore (lit 424.93) = lit 4.0 /\
   normalizeOpScore (lit 1252.11) = lit 10.0 /\
   normalizeOpScore (lit 146.92) = lit 0.0 /\
   normalizeOpScore (lit 2000) = lit 10.0 /\
   normalizeOpScore (lit 0) = lit 0.0) /\
  (normalizeOpScore (lit 468.92) = lit 4.5 /\
   nlt (lit 4.0) (lit 4.5) = true /\ nlt (lit 4.5) (lit 5.0) = true).
Proof.
  split; [exact normalizeOpScore_clamp_above |].
  split; [exact normalizeOpScore_clamp_below |].
  split; [exact thresholds_anchors |].
  split.
  { intros t Ht. unfold thresholds in Ht.
    repeat (apply elem_of_cons in Ht as [-> | Ht];
            [vm_compute; reflexivity |]).
    inversion Ht. }
  split; [exact normalizeOpScore_bracket |].
  split.
  { repeat split; vm_compute; reflexivity. }
  repeat split; vm_compute; reflexivity.
Qed.

Lemma normalizeOpScore_piecewise_witness :
  normalizeOpScore (lit 2000) = lit 10.0 /\
  normalizeOpScore (lit 100) = lit 0.0 /\
  normalizeOpScore (lit 300)
  = interpolate (lit 300) (to_threshold (350, 3.0)) (to_threshold (280, 2.0)).
Proof.
  destruct normalizeOpScore_piecewise as (Habove & Hbelow & _ & _ & Hinterp & _).
  split; [apply Habove; vm_compute; reflexivity |].
  split; [apply Hbelow; vm_compute; reflexivity |].
  apply (Hinterp 7%nat (to_threshold (350, 3.0)) (to_threshold (280, 2.0)) (lit 300));
    [reflexivity | reflexivity | vm_compute; reflexivity ..].
Defined.

(** The claim of C1 about the interpolation fails on the code.  The
    number 876.5373 of binary64 lies strictly between the anchors 874.65
    and 1252.11; the exact linear interpolation of the grades 9 and 10
    at this number is below 9.005, so it is 9.00 when rounded to two
    decimals, but the code returns 9.01.  At 221.5, between 220 and 280,
    the exact interpolation is 1.025, which [Math.round] would take to
    1.03, and the code returns 1.02. *)
Lemma normalizeOpScore_not_exact_interpolation :
  (nlt (lit 874.65) (lit 876.5373) = true /\
   nlt (lit 876.5373) (lit 1252.11) = true /\
   is_finite (lit 876.5373) = true /\
   lerp (874.65, 9.0) (1252.11, 10.0) (to_Q (lit 876.5373)) < 9.005 /\
   round2 (lerp (874.65, 9.0) (1252.11, 10.0) (to_Q (lit 876.5373))) == 9.0 /\
   round2 (lerp (to_Q (lit 874.65), 9.0) (to_Q (lit 1252.11), 10.0)
                (to_Q (lit 876.5373))) == 9.0 /\
   normalizeOpScore (lit 876.5373) = lit 9.01 /\
   nlt (lit 9.0) (lit 9.01) = true) /\
  (nlt (lit 220) (lit 221.5) = true /\
   nlt (lit 221.5) (lit 280) = true /\
   to_Q (lit 221.5) == 221.5 /\
   lerp (220, 1.0) (280, 2.0) (to_Q (lit 221.5)) == 1.025 /\
   round2 (lerp (220, 1.0) (280, 2.0) (to_Q (lit 221.5))) == 1.03 /\
   normalizeOpScore (lit 221.5) = lit 1.02 /\
   nlt (lit 1.02) (lit 1.03) = true).
Proof.
  split; repeat split; vm_compute; reflexivity.
Qed.

End ScoreModel.

(** ** Full rebuild: the aggregation pass *)

Section Aggregation.

Import Rebuild Observed.

Implicit Types (m : players_map) (k : string) (a : aggregate).

Lemma map_get_None k m : map_get k m = None <-> k ∉ fst <$> m.
Proof.
  induction m as [| [k' v] rest IH]; csimpl.
  - split; [intros _; apply not_elem_of_nil | done].
  - destruct (String.eqb_spec k k') as [-> | Hne].
    + split; [done | intros H; exfalso; apply H; left].
    + rewrite IH, not_elem_of_cons. tauto.
Qed.

Lemma map_get_Some_elem k a m : map_get k m = Some a -> (k, a) ∈ m.
Proof.
  induction m as [| [k' v] rest IH]; simpl; [done |].
  destruct (String.eqb_spec k k') as [-> | Hne].
  - intros [= ->]. left.
  - intros H. right. auto.
Qed.

Lemma map_get_snoc k k' v m :
  map_get k (m ++ [(k', v)]) =
  match map_get k m with
  | Some a => Some a
  | None => if String.eqb k k' then Some v else None
  end.
Proof.
  induction m as [| [k'' v'] rest IH]; simpl; [done |].
  destruct (String.eqb k k''); [done | exact IH].
Qed.

Lemma map_mutate_keys f k m : fst <$> map_mutate f k m = fst <$> m.
Proof.
  induction m as [| [k' v] rest IH]; csimpl; [done |].
  destruct (String.eqb k k'); csimpl; [done | by rewrite IH].
Qed.

Lemma map_get_mutate f k k' m :
  map_get k' (map_mutate f k m) =
  if String.eqb k' k then f <$> map_get k' m else map_get k' m.
Proof.
  induction m as [| [k'' v] rest IH]; simpl.
  - by destruct (String.eqb k' k).
  - destruct (String.eqb_spec k k'') as [-> | Hne]; simpl.
    + destruct (String.eqb_spec k' k'') as [-> | Hne']; [done |].
      done.
    + destruct (String.eqb_spec k' k'') as [-> | Hne'].
      * destruct (String.eqb_spec k'' k) as [-> | _]; [done | done].
      * exact IH.
Qed.

Lemma sum_match_count_mutate f k a m :
  map_get k m = Some a ->
  sum_match_count (map_mutate f k m) + match_count a
  = sum_match_count m + match_count (f a).
Proof.
  unfold sum_match_count.
  induction m as [| [k' v] rest IH]; simpl; [done |].
  destruct (String.eqb_spec k k') as [-> | Hne]; simpl.
  - intros [= ->]. lia.
  - intros H. specialize (IH H). lia.
Qed.

Lemma occurrences_snoc k k' n obs :
  occurrences k (obs ++ [(k', n)])
  = occurrences k obs + (if decide (k' = k) then 1 else 0).
Proof.
  unfold occurrences. rewrite filter_app, length_app. f_equal.
  rewrite filter_cons, filter_nil. simpl. by destruct (decide (k' = k)).
Qed.

Lemma occurrences_unobserved k obs : k ∉ fst <$> obs -> occurrences k obs = 0.
Proof.
  unfold occurrences. induction obs as [| [k' n] rest IH]; [done |].
  rewrite fmap_cons, not_elem_of_cons. simpl. intros [Hne Hrest].
  rewrite filter_cons. simpl. destruct (decide (k' = k)); [congruence | auto].
Qed.

Lemma set_add_elem x y s : x ∈ set_add y s <-> x ∈ s \/ x = y.
Proof.
  unfold set_add. case_bool_decide.
  - split; [auto | intros [? | ->]; done].
  - rewrite elem_of_app, list_elem_of_singleton. done.
Qed.

Lemma set_add_NoDup y s : NoDup s -> NoDup (set_add y s).
Proof.
  intros Hs. unfold set_add. case_bool_decide; [done |].
  apply NoDup_app. split_and!; [done | | apply NoDup_singleton].
  intros x Hx ->%list_elem_of_singleton. done.
Qed.

(** One participant with a puuid extends the observations by one. *)
Lemma aggregates_step file d st p k0 obs :
  key_string (puuid p) = Some k0 ->
  aggregates obs (playersMap st) ->
  aggregates (obs ++ [(k0, display_name p)])
             (playersMap (process_participant file d st p)).
Proof.
  intros Hp (Hnd & Hnone & Hsome).
  unfold process_participant. rewrite Hp.
  set (n0 := display_name p).
  destruct (map_get k0 (playersMap st)) as [a0 |] eqn:Hget; simpl playersMap.
  - (* the puuid is known: its aggregate is mutated *)
    assert (Hobs0 : k0 ∈ fst <$> obs).
    { destruct (decide (k0 ∈ fst <$> obs)) as [| Hn]; [done |].
      apply Hnone in Hn. congruence. }
    split_and!.
    + by rewrite map_mutate_keys.
    + intros k. rewrite map_get_mutate, fmap_app, elem_of_app.
      csimpl. rewrite list_elem_of_singleton.
      destruct (String.eqb_spec k k0) as [-> | Hne].
      * rewrite Hget. csimpl. split; [done | intros H; exfalso; apply H; by left].
      * rewrite Hnone. tauto.
    + intros k a. rewrite map_get_mutate.
      destruct (String.eqb_spec k k0) as [-> | Hne].
      * rewrite Hget. csimpl. intros [= <-].
        destruct (Hsome k0 a0 Hget) as (Hc & Hn & Hndn & Hco).
        split_and!; simpl.
        -- rewrite occurrences_snoc, Hc. by rewrite decide_True.
        -- intros n. rewrite set_add_elem, Hn, elem_of_app, list_elem_of_singleton.
           split; [intros [? | ->]; auto | intros [? | [= ->]]; auto].
        -- by apply set_add_NoDup.
        -- done.
      * intros Ha. destruct (Hsome k a Ha) as (Hc & Hn & Hndn & Hco).
        split_and!; [| | done | done].
        -- rewrite occurrences_snoc, Hc. rewrite decide_False by done. lia.
        -- intros n. rewrite Hn, elem_of_app, list_elem_of_singleton.
           split; [auto | intros [? | [= ? ?]]; [done | congruence]].
  - (* a new puuid: an entry is appended *)
    assert (Hobs0 : k0 ∉ fst <$> obs) by (by apply Hnone).
    split_and!.
    + rewrite fmap_app. csimpl. apply NoDup_app. split_and!; [done | | apply NoDup_singleton].
      intros x Hx ->%list_elem_of_singleton. by apply map_get_None in Hget.
    + intros k. rewrite map_get_snoc, fmap_app, elem_of_app.
      csimpl. rewrite list_elem_of_singleton.
      destruct (map_get k (playersMap st)) as [a |] eqn:Hk.
      * split; [done |]. intros H. exfalso.
        assert (k ∈ fst <$> obs); [| tauto].
        destruct (decide (k ∈ fst <$> obs)) as [| Hn]; [done |].
        apply Hnone in Hn. congruence.
      * apply Hnone in Hk.
        destruct (String.eqb_spec k k0) as [-> | Hne]; [| tauto].
        split; [done | intros H; exfalso; apply H; by right].
    + intros k a. rewrite map_get_snoc.
      destruct (map_get k (playersMap st)) as [a' |] eqn:Hk.
      * intros [= <-].
        assert (Hne : k <> k0) by congruence.
        destruct (Hsome k a' Hk) as (Hc & Hn & Hndn & Hco).
        split_and!; [| | done | done].
        -- rewrite occurrences_snoc, Hc. rewrite decide_False by done. lia.
        -- intros n. rewrite Hn, elem_of_app, list_elem_of_singleton.
           split; [auto | intros [? | [= ? ?]]; [done | congruence]].
      * destruct (String.eqb_spec k k0) as [-> | Hne]; [| done].
        intros [= <-]. split_and!; simpl.
        -- rewrite occurrences_snoc, occurrences_unobserved by done.
           by rewrite decide_True.
        -- intros n. rewrite list_elem_of_singleton, elem_of_app, list_elem_of_singleton.
           split; [intros ->; by right | intros [Hin | [= ->]]; [| done]].
           exfalso. apply Hobs0. apply list_elem_of_fmap. by exists (k0, n).
        -- apply NoDup_singleton.
        -- done.
Qed.

Lemma process_participant_missing_puuid file d st p :
  key_string (puuid p) = None ->
  core (process_participant file d st p) = core st.
Proof. unfold process_participant. by intros ->. Qed.

Lemma aggregates_entries file d entries : forall st obs,
  aggregates obs (playersMap st) ->
  aggregates (obs ++ omap observation (processed entries))
             (playersMap (fst (process_entries file d st entries))).
Proof.
  induction entries as [| [p |] entries IH]; intros st obs Hinv; simpl;
    [by rewrite app_nil_r | | by rewrite app_nil_r].
  unfold observation at 1.
  destruct (key_string (puuid p)) as [k0 |] eqn:Hp.
  - rewrite cons_middle, app_assoc. apply IH. by apply aggregates_step.
  - apply IH.
    pose proof (process_participant_missing_puuid file d st p Hp) as Hcore.
    unfold core in Hcore. injection Hcore as -> _ _. exact Hinv.
Qed.

Lemma aggregates_file st f obs :
  aggregates obs (playersMap st) ->
  aggregates (obs ++ observations_of f) (playersMap (process_file st f)).
Proof.
  intros Hinv. destruct f as [file data]. unfold observations_of, process_file.
  destruct data as [| | [info |]]; simpl; rewrite ?app_nil_r; try exact Hinv.
  destruct (participants info) as [| | | entries]; simpl; rewrite ?app_nil_r;
    try exact Hinv.
  pose proof (aggregates_entries file (ndiv (to_number (gameDuration info)) (lit 60))
                entries (count_match st) obs Hinv) as H.
  destruct (process_entries _ _ _ entries) as [st' threw].
  by destruct threw.
Qed.

Lemma aggregates_files files : forall st obs,
  aggregates obs (playersMap st) ->
  aggregates (obs ++ observations files) (playersMap (foldl process_file st files)).
Proof.
  induction files as [| f files IH]; intros st obs Hinv; simpl foldl.
  - unfold observations. simpl. by rewrite app_nil_r.
  - unfold observations. rewrite bind_cons, app_assoc.
    apply IH. by apply aggregates_file.
Qed.

(** After the pass, [playersMap] aggregates the observations of the
    corpus. *)
Lemma aggregate_corpus_aggregates files :
  aggregates (observations files) (playersMap (aggregate_corpus files)).
Proof.
  apply (aggregates_files files initial []).
  split_and!; simpl.
  - apply NoDup_nil_2.
  - intros k. split; [intros _; apply not_elem_of_nil | done].
  - intros k a H. discriminate H.
Qed.

(** *** Counting *)

Lemma sum_match_count_step file d st p :
  sum_match_count (playersMap (process_participant file d st p))
  = sum_match_count (playersMap st) + (if has_puuid p then 1 else 0).
Proof.
  unfold has_puuid, process_participant.
  destruct (key_string (puuid p)) as [k0 |]; simpl; [| lia].
  destruct (map_get k0 (playersMap st)) as [a0 |] eqn:Hget; simpl.
  - pose proof (sum_match_count_mutate
                  (merge (display_name p) (feedscore_of p) (rawOpScore_of d p))
                  _ _ _ Hget) as H.
    simpl in H. lia.
  - unfold sum_match_count. rewrite sum_list_with_app. simpl. lia.
Qed.

Lemma totalMatches_step file d st p :
  totalMatches (process_participant file d st p) = totalMatches st.
Proof.
  unfold process_participant.
  destruct (key_string (puuid p)) as [k0 |]; [| done].
  by destruct (map_get k0 (playersMap st)).
Qed.

Lemma sum_match_count_entries file d entries : forall st,
  sum_match_count (playersMap (fst (process_entries file d st entries)))
  = sum_match_count (playersMap st) + length (filter has_puuid (processed entries)).
Proof.
  induction entries as [| [p |] entries IH]; intros st;
    cbn [process_entries processed fst]; rewrite ?filter_nil; [simpl; lia | | simpl; lia].
  rewrite IH, sum_match_count_step.
  destruct (has_puuid p) eqn:Hp.
  - rewrite filter_cons_True by (by apply Is_true_true). simpl. lia.
  - rewrite filter_cons_False by (intros H%Is_true_true; congruence). lia.
Qed.

Lemma totalMatches_entries file d entries : forall st,
  totalMatches (fst (process_entries file d st entries)) = totalMatches st.
Proof.
  induction entries as [| [p |] entries IH]; intros st; simpl; [done | | done].
  by rewrite IH, totalMatches_step.
Qed.

(** The loop throws exactly when an entry is [null]. *)
Lemma process_entries_threw file d entries : forall st,
  snd (process_entries file d st entries)
  = negb (forallb (fun e => bool_decide (is_Some e)) entries).
Proof.
  induction entries as [| [p |] entries IH]; intros st; simpl; [done | | done].
  by rewrite IH.
Qed.

Lemma processed_objects (ps : list participant) : processed (Some <$> ps) = ps.
Proof. induction ps as [| p ps IH]; csimpl; [done | by rewrite IH]. Qed.

Lemma forallb_objects (ps : list participant) :
  forallb (fun e => bool_decide (is_Some e)) (Some <$> ps) = true.
Proof.
  induction ps as [| p ps IH]; csimpl; [done |]. by rewrite IH.
Qed.

(** A valid match adds ten to the counts and one to [totalMatches]. *)
Lemma process_file_valid st f :
  valid_match f ->
  sum_match_count (playersMap (process_file st f))
  = sum_match_count (playersMap st) + 10 /\
  totalMatches (process_file st f) = totalMatches st + 1.
Proof.
  intros (ps & Hps & Hlen & Hall). destruct f as [file data].
  unfold iterated in Hps. simpl in Hps.
  destruct data as [| | [info |]]; try discriminate Hps.
  destruct (participants info) as [| | | entries] eqn:Hpart; try discriminate Hps.
  injection Hps as ->.
  unfold process_file. rewrite Hpart. cbn [has_participants negb iterate].
  set (d := ndiv (to_number (gameDuration info)) (lit 60)).
  pose proof (sum_match_count_entries file d (Some <$> ps) (count_match st)) as Hsum.
  pose proof (totalMatches_entries file d (Some <$> ps) (count_match st)) as Htot.
  pose proof (process_entries_threw file d (Some <$> ps) (count_match st)) as Hthrew.
  rewrite forallb_objects in Hthrew.
  destruct (process_entries file d (count_match st) (Some <$> ps)) as [st' threw].
  simpl in Hsum, Htot, Hthrew. subst threw.
  rewrite Hsum, Htot, processed_objects. split; [| done]. f_equal.
  rewrite <- Hlen. f_equal. clear Hlen Hpart Hsum.
  induction Hall as [| p ps Hp Hall IH]; [done |].
  rewrite filter_cons_True by (by apply Is_true_true). by rewrite IH.
Qed.

Lemma aggregate_valid_corpus files : forall st,
  Forall valid_match files ->
  sum_match_count (playersMap (foldl process_file st files))
  = sum_match_count (playersMap st) + 10 * length files /\
  totalMatches (foldl process_file st files) = totalMatches st + length files.
Proof.
  induction files as [| f files IH]; intros st Hall; simpl foldl.
  - simpl. lia.
  - apply Forall_cons in Hall as [Hf Hall].
    destruct (IH (process_file st f) Hall) as [-> ->].
    destruct (process_file_valid st f Hf) as [-> ->].
    simpl. lia.
Qed.

End Aggregation.

(** ** Full rebuild: the write to the table *)

Section RebuildWrite.

Import Rebuild Observed.

Implicit Types (m : players_map) (d : Store.table) (k : string).

Lemma table_eq d1 d2 :
  Store.keyed d1 = Store.keyed d2 -> Store.unkeyed d1 = Store.unkeyed d2 -> d1 = d2.
Proof. destruct d1, d2. simpl. by intros -> ->. Qed.

Lemma write_players_cons e m d :
  write_players (e :: m) d
  = write_players m (Store.insert_or_replace (fst e) (final_row (snd e)) d).
Proof. reflexivity. Qed.

(** The rows without a puuid are not written. *)
Lemma write_players_unkeyed m : forall d,
  Store.unkeyed (write_players m d) = Store.unkeyed d.
Proof.
  induction m as [| [k' a] m IH]; intros d; [done |].
  by rewrite write_players_cons, IH.
Qed.

(** A key outside [playersMap] keeps its row. *)
Lemma write_players_lookup_other m : forall d k,
  k ∉ fst <$> m -> Store.keyed (write_players m d) !! k = Store.keyed d !! k.
Proof.
  induction m as [| [k' a] m IH]; intros d k Hk; [done |].
  rewrite fmap_cons, not_elem_of_cons in Hk. destruct Hk as [Hne Hk].
  rewrite write_players_cons, IH by done.
  unfold Store.insert_or_replace. simpl. by rewrite lookup_insert_ne.
Qed.

(** A key of [playersMap] holds the row computed from its aggregate. *)
Lemma write_players_lookup_key m : forall d k a,
  NoDup (fst <$> m) -> (k, a) ∈ m ->
  Store.keyed (write_players m d) !! k = Some (final_row a).
Proof.
  induction m as [| [k' a'] m IH]; intros d k a Hnd Hin.
  - by apply elem_of_nil in Hin.
  - rewrite fmap_cons in Hnd. apply NoDup_cons in Hnd as [Hk' Hnd].
    rewrite write_players_cons.
    apply elem_of_cons in Hin as [[= -> ->] | Hin].
    + rewrite write_players_lookup_other by done.
      unfold Store.insert_or_replace. simpl. by rewrite lookup_insert_eq.
    + by apply IH.
Qed.

(** The result depends on the table only outside the keys written. *)
Lemma write_players_ext m : forall d1 d2,
  (forall k, k ∉ fst <$> m -> Store.keyed d1 !! k = Store.keyed d2 !! k) ->
  Store.unkeyed d1 = Store.unkeyed d2 ->
  write_players m d1 = write_players m d2.
Proof.
  intros d1 d2 Hext Hun. apply table_eq; [| by rewrite !write_players_unkeyed].
  clear Hun. apply map_eq. intros k.
  destruct (decide (k ∈ fst <$> m)) as [Hin | Hout].
  - revert d1 d2 Hext. induction m as [| [k' a'] m IH]; intros d1 d2 Hext.
    + by apply elem_of_nil in Hin.
    + rewrite !write_players_cons.
      destruct (decide (k ∈ fst <$> m)) as [Hin' | Hout'].
      * apply IH; [done |]. intros j Hj. unfold Store.insert_or_replace. simpl.
        destruct (decide (k' = j)) as [-> | Hne].
        -- by rewrite !lookup_insert_eq.
        -- rewrite !lookup_insert_ne by done. apply Hext.
           rewrite fmap_cons, not_elem_of_cons. auto.
      * rewrite !write_players_lookup_other by done.
        rewrite fmap_cons in Hin. apply elem_of_cons in Hin as [-> | Hin]; [| done].
        unfold Store.insert_or_replace. simpl. by rewrite !lookup_insert_eq.
  - rewrite !write_players_lookup_other by done. by apply Hext.
Qed.

Lemma reset_scores_idemp (r : Store.row) :
  Store.reset_scores (Store.reset_scores r) = Store.reset_scores r.
Proof. reflexivity. Qed.

Lemma reset_table_idemp d :
  Store.reset_table (Store.reset_table d) = Store.reset_table d.
Proof.
  apply table_eq; simpl.
  - apply map_eq. intros k. rewrite !lookup_fmap.
    by destruct (Store.keyed d !! k).
  - rewrite <- list_fmap_compose. by apply list_fmap_ext.
Qed.

(** *** The sum of the stored match counts *)

Lemma total_match_count_insert d k (r : Store.row) :
  (forall r0, Store.keyed d !! k = Some r0 -> Store.match_count r0 = 0) ->
  Store.total_match_count (Store.insert_or_replace k r d)
  = Store.total_match_count d + Store.match_count r.
Proof.
  intros Hzero. unfold Store.total_match_count, Store.insert_or_replace. simpl.
  destruct (Store.keyed d !! k) as [r0 |] eqn:Hk.
  - rewrite <- (insert_delete_eq (Store.keyed d) k r).
    rewrite map_to_list_insert by apply lookup_delete_eq.
    rewrite <- (map_to_list_delete (Store.keyed d) k r0 Hk). simpl.
    rewrite (Hzero r0 eq_refl). lia.
  - rewrite map_to_list_insert by done. simpl. lia.
Qed.

Lemma total_match_count_write m : forall d,
  NoDup (fst <$> m) ->
  (forall k r0, k ∈ fst <$> m -> Store.keyed d !! k = Some r0 ->
                Store.match_count r0 = 0) ->
  Store.total_match_count (write_players m d)
  = Store.total_match_count d + sum_match_count m.
Proof.
  induction m as [| [k a] m IH]; intros d Hnd Hzero.
  - unfold sum_match_count. simpl. lia.
  - rewrite fmap_cons in Hnd. apply NoDup_cons in Hnd as [Hk Hnd].
    rewrite write_players_cons, IH; [| done |].
    + simpl fst. simpl snd.
      rewrite total_match_count_insert.
      * unfold sum_match_count. simpl. lia.
      * intros r0 Hr0. apply (Hzero k r0); [| done]. rewrite fmap_cons. left.
    + intros j r0 Hj. unfold Store.insert_or_replace. simpl.
      rewrite lookup_insert_ne by (intros ->; done).
      apply Hzero. rewrite fmap_cons. by right.
Qed.

Lemma total_match_count_reset d :
  Store.total_match_count (Store.reset_table d) = 0.
Proof.
  unfold Store.total_match_count, Store.reset_table. simpl.
  rewrite map_to_list_fmap.
  assert (H1 : sum_list_with (fun kr : string * Store.row => Store.match_count (snd kr))
                 (prod_map id Store.reset_scores <$> map_to_list (Store.keyed d)) = 0).
  { induction (map_to_list (Store.keyed d)) as [| [k r] l IH]; [done |].
    csimpl. exact IH. }
  assert (H2 : sum_list_with Store.match_count (Store.reset_scores <$> Store.unkeyed d) = 0).
  { induction (Store.unkeyed d) as [| r l IH]; [done |]. csimpl. exact IH. }
  rewrite H1, H2. done.
Qed.

End RebuildWrite.

(** ** Full rebuild: the claims *)

Section RebuildClaims.

Import Rebuild Observed.

Lemma playersMap_keys_observed files k :
  k ∈ fst <$> playersMap (aggregate_corpus files) <-> k ∈ fst <$> observations files.
Proof.
  destruct (aggregate_corpus_aggregates files) as (_ & Hnone & _).
  specialize (Hnone k). rewrite map_get_None in Hnone.
  destruct (decide (k ∈ fst <$> playersMap (aggregate_corpus files)));
    destruct (decide (k ∈ fst <$> observations files)); tauto.
Qed.

(** C7. The full rebuild is idempotent: run again on the same corpus,
    it leaves the table of the first run unchanged, row for row. *)
Theorem normalizePlayersByPuuid_idempotent (files : corpus) (db : Store.table) :
  normalizePlayersByPuuid files (normalizePlayersByPuuid files db)
  = normalizePlayersByPuuid files db.
Proof.
  unfold normalizePlayersByPuuid.
  apply write_players_ext.
  - intros k Hk. simpl.
    rewrite lookup_fmap, write_players_lookup_other by done. simpl.
    rewrite !lookup_fmap. destruct (Store.keyed db !! k) as [r |]; [| done].
    simpl. by rewrite reset_scores_idemp.
  - simpl. rewrite write_players_unkeyed. simpl.
    rewrite <- list_fmap_compose. by apply list_fmap_ext.
Qed.

(** C8. On a corpus of valid matches (ten participants each, all with a
    puuid) the match counts of the aggregates sum to ten times the
    number of matches processed, every file is processed, and the
    match counts stored in the table after the rebuild sum to the same
    number. *)
Theorem rebuild_match_count_sum (files : corpus) (db : Store.table) :
  Forall valid_match files ->
  sum_match_count (playersMap (aggregate_corpus files))
  = 10 * totalMatches (aggregate_corpus files) /\
  totalMatches (aggregate_corpus files) = length files /\
  Store.total_match_count (normalizePlayersByPuuid files db)
  = 10 * totalMatches (aggregate_corpus files).
Proof.
  intros Hvalid.
  destruct (aggregate_valid_corpus files initial Hvalid) as [Hsum Htotal].
  fold (aggregate_corpus files) in Hsum, Htotal.
  change (sum_match_count (playersMap initial)) with 0 in Hsum.
  change (totalMatches initial) with 0 in Htotal.
  split_and!; [lia | lia |].
  unfold normalizePlayersByPuuid.
  destruct (aggregate_corpus_aggregates files) as (Hnd & _ & _).
  rewrite total_match_count_write, total_match_count_reset; [lia | done |].
  intros k r0 _. simpl. rewrite lookup_fmap.
  destruct (Store.keyed db !! k) as [r |]; [| done]. by intros [= <-].
Qed.

Lemma rebuild_match_count_sum_witness :
  sum_match_count
    (playersMap (aggregate_corpus [Examples.match_euw; Examples.match_na1]))
  = 10 * totalMatches (aggregate_corpus [Examples.match_euw; Examples.match_na1]) /\
  totalMatches (aggregate_corpus [Examples.match_euw; Examples.match_na1]) = 2 /\
  Store.total_match_count
    (normalizePlayersByPuuid [Examples.match_euw; Examples.match_na1]
                             Examples.classified_table)
  = 10 * totalMatches (aggregate_corpus [Examples.match_euw; Examples.match_na1]).
Proof.
  apply (rebuild_match_count_sum [Examples.match_euw; Examples.match_na1]
                                 Examples.classified_table).
  repeat constructor.
  - exists (Examples.sample "p0" "Alice" "EUW" :: Examples.nine_others).
    split; [reflexivity |]. split; [reflexivity |].
    repeat constructor.
  - exists (Examples.sample "p0" "Alice" "NA1" :: Examples.nine_others).
    split; [reflexivity |]. split; [reflexivity |].
    repeat constructor.
Defined.

Lemma rebuild_lookup_unobserved (files : corpus) (db : Store.table) (k : string) :
  k ∉ fst <$> observations files ->
  Store.keyed (normalizePlayersByPuuid files db) !! k
  = Store.reset_scores <$> Store.keyed db !! k.
Proof.
  intros Hout. unfold normalizePlayersByPuuid.
  rewrite write_players_lookup_other by (by rewrite playersMap_keys_observed).
  simpl. by rewrite lookup_fmap.
Qed.

Lemma rebuild_lookup_observed (files : corpus) (db : Store.table) (k : string) :
  k ∈ fst <$> observations files ->
  exists a, map_get k (playersMap (aggregate_corpus files)) = Some a /\
            Store.keyed (normalizePlayersByPuuid files db) !! k = Some (final_row a) /\
            Store.country (final_row a) = None.
Proof.
  intros Hin. unfold normalizePlayersByPuuid.
  destruct (aggregate_corpus_aggregates files) as (Hnd & Hnone & Hsome).
  destruct (map_get k (playersMap (aggregate_corpus files))) as [a |] eqn:Hget.
  - exists a. split; [done |].
    destruct (Hsome k a Hget) as (_ & _ & _ & Hcountry).
    split; [| exact Hcountry].
    apply write_players_lookup_key; [done |]. by apply map_get_Some_elem.
  - apply Hnone in Hget. done.
Qed.

(** The rows without a puuid keep their names and their country. *)
Lemma rebuild_unkeyed (files : corpus) (db : Store.table) :
  Store.unkeyed (normalizePlayersByPuuid files db)
  = Store.reset_scores <$> Store.unkeyed db.
Proof. unfold normalizePlayersByPuuid. by rewrite write_players_unkeyed. Qed.

(** C3, as the code has it.  A row that existed before the rebuild and
    whose puuid the corpus does not contain keeps its names and its
    country, with feedscore, opscore and match_count set to zero; a row
    whose puuid the corpus contains is replaced by the row computed from
    the corpus, whose country is null. *)
Theorem rebuild_country_frame
    (files : corpus) (db : Store.table) (k : string) (r : Store.row) :
  Store.keyed db !! k = Some r ->
  (k ∉ fst <$> observations files ->
     exists r', Store.keyed (normalizePlayersByPuuid files db) !! k = Some r' /\
                Store.names r' = Store.names r /\
                Store.country r' = Store.country r /\
                Store.feedscore r' = Some zero /\
                Store.opscore r' = Some zero /\
                Store.match_count r' = 0) /\
  (k ∈ fst <$> observations files ->
     exists a, map_get k (playersMap (aggregate_corpus files)) = Some a /\
               Store.keyed (normalizePlayersByPuuid files db) !! k
               = Some (final_row a) /\
               Store.country (final_row a) = None).
Proof.
  intros Hk. split.
  - intros Hout. exists (Store.reset_scores r).
    rewrite rebuild_lookup_unobserved, Hk by done. by split_and!.
  - apply rebuild_lookup_observed.
Qed.

Lemma rebuild_country_frame_witness :
  (exists r', Store.keyed (normalizePlayersByPuuid [Examples.broken_file]
                                                   Examples.classified_table)
                !! "p0" = Some r' /\
              Store.names r' = Store.names Examples.classified_row /\
              Store.country r' = Store.country Examples.classified_row /\
              Store.feedscore r' = Some zero /\
              Store.opscore r' = Some zero /\
              Store.match_count r' = 0) /\
  (exists a, map_get "p0" (playersMap (aggregate_corpus [Examples.match_euw])) = Some a /\
             Store.keyed (normalizePlayersByPuuid [Examples.match_euw]
                                                  Examples.classified_table)
               !! "p0" = Some (final_row a) /\
             Store.country (final_row a) = None).
Proof.
  split.
  - apply (rebuild_country_frame [Examples.broken_file] Examples.classified_table
                                 "p0" Examples.classified_row eq_refl).
    apply not_elem_of_nil.
  - apply (rebuild_country_frame [Examples.match_euw] Examples.classified_table
                                 "p0" Examples.classified_row eq_refl).
    left.
Defined.

(** The country of a classified player is lost when the corpus
    contains the player: the claim of C3 fails on the code. *)
Lemma rebuild_clobbers_country :
  exists r0 r1 : Store.row,
    Store.keyed Examples.classified_table !! "p0" = Some r0 /\
    Store.keyed (normalizePlayersByPuuid [Examples.match_euw] Examples.classified_table)
      !! "p0" = Some r1 /\
    Store.country r0 = Some "HU" /\
    Store.country r1 = None /\
    Store.country r1 <> Store.country r0.
Proof.
  exists Examples.classified_row.
  destruct (rebuild_lookup_observed [Examples.match_euw] Examples.classified_table "p0")
    as (a & _ & Hrow & Hcountry).
  { left. }
  exists (final_row a). rewrite Hcountry. split_and!; done.
Qed.

(** *** Division by the game duration *)

(** C2, on the code.  With a game duration of zero the division
    [goldEarned / gameDurationMinutes] is a division by zero: the raw
    opscore of every participant of that match is infinite or NaN, it
    enters [opscoreSum], and the stored grade of the sample player
    becomes 10.0. *)
Theorem zero_duration_divides_by_zero :
  (forall p : participant,
     is_finite (rawOpScore_of (ndiv (lit 0) (lit 60)) p) = false) /\
  opscoreSum <$> map_get "p0" (playersMap (aggregate_corpus [Examples.match_zero_duration]))
  = Some Infinity /\
  Store.opscore <$>
    Store.keyed (normalizePlayersByPuuid [Examples.match_zero_duration] Store.empty)
      !! "p0"
  = Some (Some (lit 10.0)).
Proof.
  split_and!.
  - intros p. unfold rawOpScore_of.
    apply nadd_not_finite_l, nadd_not_finite_r.
    replace (ndiv (lit 0) (lit 60)) with (S754_zero false) by (vm_compute; reflexivity).
    apply ndiv_zero_not_finite.
  - vm_compute. reflexivity.
  - vm_compute. reflexivity.
Qed.

(** *** Malformed documents *)

Lemma core_process_participant file d st1 st2 p :
  core st1 = core st2 ->
  core (process_participant file d st1 p) = core (process_participant file d st2 p).
Proof.
  destruct st1, st2. unfold core. simpl. intros [= -> -> ->].
  unfold process_participant. simpl.
  destruct (key_string (puuid p)) as [k0 |]; [| done].
  by destruct (map_get k0 _).
Qed.

Lemma core_entries file d entries : forall st1 st2,
  core st1 = core st2 ->
  core (fst (process_entries file d st1 entries))
  = core (fst (process_entries file d st2 entries)).
Proof.
  induction entries as [| [p |] entries IH]; intros st1 st2 Hcore; simpl; [done | | done].
  by apply IH, core_process_participant.
Qed.

Lemma core_count_match st1 st2 :
  core st1 = core st2 -> core (count_match st1) = core (count_match st2).
Proof. destruct st1, st2. unfold core. simpl. by intros [= -> -> ->]. Qed.

Lemma skips_log e st : skips (log e st) = skips st + (if is_skip e then 1 else 0).
Proof.
  unfold skips, log. simpl. rewrite filter_app, length_app. f_equal.
  rewrite filter_cons, filter_nil. by destruct e.
Qed.

Lemma skips_process_participant file d st p :
  skips (process_participant file d st p) = skips st.
Proof.
  unfold process_participant.
  destruct (key_string (puuid p)) as [k0 |].
  - by destruct (map_get k0 (playersMap st)).
  - rewrite skips_log. simpl. lia.
Qed.

Lemma skips_entries file d entries : forall st,
  skips (fst (process_entries file d st entries)) = skips st.
Proof.
  induction entries as [| [p |] entries IH]; intros st; simpl; [done | | done].
  by rewrite IH, skips_process_participant.
Qed.

Lemma clean_shaped f : clean f = true -> shaped f = true.
Proof.
  destruct f as [file data]. unfold clean, shaped, iterated. simpl.
  destruct data as [| | [info |]]; try done.
  by destruct (participants info) as [| | | entries].
Qed.

(** A malformed document changes nothing but the console, which gains
    one line that reports it. *)
Lemma process_file_malformed st f :
  shaped f = false ->
  core (process_file st f) = core st /\
  exists e, console (process_file st f) = console st ++ [e] /\ is_skip e = true.
Proof.
  destruct f as [file data]. unfold shaped, process_file. simpl.
  destruct data as [| | [info |]]; simpl.
  - intros _. split; [done |]. by exists (ErrorProcessingFile file).
  - intros _. split; [done |]. by exists (ErrorProcessingFile file).
  - destruct (has_participants (participants info)); [done |].
    intros _. split; [done |]. by exists (WarnInvalidStructure file).
  - intros _. split; [done |]. by exists (WarnInvalidStructure file).
Qed.

(** What a document with [info] and [info.participants] does to the
    state: it is counted, it adds a line that reports it exactly when
    its processing throws, and the rest of the state does not depend on
    the console. *)
Lemma process_file_shaped st f :
  shaped f = true ->
  totalMatches (process_file st f) = totalMatches st + 1 /\
  skips (process_file st f) = skips st + (if clean f then 0 else 1) /\
  forall st2, core st = core st2 ->
              core (process_file st f) = core (process_file st2 f).
Proof.
  destruct f as [file data]. unfold shaped, clean, iterated, process_file. simpl.
  destruct data as [| | [info |]]; try done.
  destruct (participants info) as [| | | entries]; [done | done | |]; intros _;
    cbn [has_participants negb iterate].
  - split_and!; [done | by rewrite skips_log |].
    intros st2 Hcore. apply (core_count_match _ _ Hcore).
  - set (d := ndiv (to_number (gameDuration info)) (lit 60)).
    pose proof (totalMatches_entries file d entries (count_match st)) as Htot.
    pose proof (skips_entries file d entries (count_match st)) as Hsk.
    pose proof (process_entries_threw file d entries (count_match st)) as Hthrew.
    split_and!.
    + destruct (process_entries file d (count_match st) entries) as [st' threw].
      simpl in Htot. by destruct threw.
    + destruct (process_entries file d (count_match st) entries) as [st' threw].
      simpl in Hsk, Hthrew. subst threw.
      destruct (forallb _ entries); simpl.
      * change (skips st' = skips st + 0). rewrite Hsk. unfold skips. simpl. lia.
      * rewrite skips_log, Hsk. unfold skips. simpl. lia.
    + intros st2 Hcore.
      pose proof (core_entries file d entries _ _ (core_count_match _ _ Hcore)) as Hc.
      pose proof (process_entries_threw file d entries (count_match st2)) as Hthrew2.
      destruct (process_entries file d (count_match st) entries) as [st' threw].
      destruct (process_entries file d (count_match st2) entries) as [st2' threw2].
      simpl in Hc, Hthrew, Hthrew2. subst threw threw2.
      by destruct (forallb _ entries).
Qed.

Lemma rebuild_skips_malformed_from files : forall st1 st2,
  core st1 = core st2 ->
  core (foldl process_file st1 files)
  = core (foldl process_file st2 (filter (fun f => shaped f) files)) /\
  totalMatches (foldl process_file st1 files)
  = totalMatches st1 + length (filter (fun f => shaped f) files) /\
  skips (foldl process_file st1 files)
  = skips st1 + length (filter (fun f => ~ clean f) files).
Proof.
  induction files as [| f files IH]; intros st1 st2 Hcore; simpl foldl.
  - rewrite !filter_nil. simpl. split_and!; [done | lia | lia].
  - destruct (shaped f) eqn:Hwf.
    + rewrite filter_cons_True by (by apply Is_true_true).
      simpl foldl.
      destruct (process_file_shaped st1 f Hwf) as (Htm & Hsk & Hco).
      destruct (IH (process_file st1 f) (process_file st2 f) (Hco st2 Hcore))
        as (-> & -> & ->).
      rewrite Htm, Hsk. destruct (clean f) eqn:Hclean.
      * rewrite (filter_cons_False (fun f => ~ clean f))
          by (intros H; apply H; by apply Is_true_true).
        simpl. split_and!; [done | lia | lia].
      * rewrite (filter_cons_True (fun f => ~ clean f))
          by (intros H%Is_true_true; congruence).
        simpl. split_and!; [done | lia | lia].
    + rewrite filter_cons_False by (intros H%Is_true_true; congruence).
      assert (Hclean : clean f = false).
      { destruct (clean f) eqn:Hc; [| done]. apply clean_shaped in Hc. congruence. }
      rewrite (filter_cons_True (fun f => ~ clean f))
        by (intros H%Is_true_true; congruence).
      destruct (process_file_malformed st1 f Hwf) as (Hc & e & He & Hskip).
      destruct (IH (process_file st1 f) st2 (eq_trans Hc Hcore)) as (-> & -> & ->).
      assert (Htm : totalMatches (process_file st1 f) = totalMatches st1).
      { unfold core in Hc. by injection Hc as _ -> _. }
      assert (Hsk : skips (process_file st1 f) = skips st1 + 1).
      { unfold skips. rewrite He, filter_app, length_app.
        rewrite filter_cons_True by (by apply Is_true_true). done. }
      rewrite Htm, Hsk. simpl. split_and!; [done | lia | lia].
Qed.

(** C5, as the code has it.  In the full rebuild a malformed document
    (not JSON, the value null, or without [info] or
    [info.participants]) is skipped: it leaves the aggregates and the
    totals as they are and puts one line on the console.  Over a corpus,
    the aggregates and the totals are those of the run over the other
    documents alone, each of which is counted in [totalMatches]; the
    aggregates hold the participants of these documents, up to the first
    [null] entry of a document; the console holds one line for each
    document that is malformed or whose processing throws (its
    participants are no array, or hold [null]), and the latter is counted
    in [totalMatches] all the same.  The run has no other outcome: the
    function is total. *)
Theorem rebuild_skips_malformed (files : corpus) :
  (forall st f, shaped f = false ->
     core (process_file st f) = core st /\
     exists e, console (process_file st f) = console st ++ [e] /\ is_skip e = true) /\
  core (aggregate_corpus files)
  = core (aggregate_corpus (filter (fun f => shaped f) files)) /\
  totalMatches (aggregate_corpus files)
  = length (filter (fun f => shaped f) files) /\
  aggregates (observations files) (playersMap (aggregate_corpus files)) /\
  skips (aggregate_corpus files)
  = length (filter (fun f => ~ clean f) files).
Proof.
  destruct (rebuild_skips_malformed_from files initial initial eq_refl)
    as (H1 & H2 & H3).
  split_and!;
    [exact process_file_malformed | exact H1 | exact H2
     | apply aggregate_corpus_aggregates | exact H3].
Qed.

Lemma rebuild_skips_malformed_witness :
  core (process_file initial Examples.broken_file) = core initial /\
  exists e, console (process_file initial Examples.broken_file)
            = console initial ++ [e] /\ is_skip e = true.
Proof.
  destruct (rebuild_skips_malformed []) as (H & _).
  apply (H initial Examples.broken_file). reflexivity.
Defined.

(** The claim of C5 fails on the code.  [addNewPlayersFromMatches]
    stops at a file that is not JSON: the valid file after it is not
    processed and the table stays empty.  The full rebuild ends in the
    same state but for the console with and without the malformed file,
    so that nothing it reports counts the skipped documents.  And a
    document whose participants hold [null], or are no array, is not
    skipped by the full rebuild: it is counted as a processed match, and
    the participants before the [null] are aggregated. *)
Lemma malformed_document_not_counted :
  (AddNew.how (AddNew.addNewPlayersFromMatches
                 [Examples.broken_file; Examples.match_euw] Store.empty)
   = AddNew.Thrown "broken.json" /\
   AddNew.table_after (AddNew.addNewPlayersFromMatches
                         [Examples.broken_file; Examples.match_euw] Store.empty)
   = Store.empty) /\
  (core (aggregate_corpus [Examples.broken_file; Examples.match_euw])
   = core (aggregate_corpus [Examples.match_euw]) /\
   ~ exists skipped : nat * nat -> nat,
       skipped (summary (aggregate_corpus [Examples.broken_file; Examples.match_euw]))
       = S (skipped (summary (aggregate_corpus [Examples.match_euw])))) /\
  (shaped Examples.match_null_entry = true /\
   summary (aggregate_corpus [Examples.match_null_entry]) = (1, 1) /\
   fst <$> playersMap (aggregate_corpus [Examples.match_null_entry]) = ["p0"] /\
   console (aggregate_corpus [Examples.match_null_entry])
   = [ErrorProcessingFile "EUW1_4.json"]) /\
  (shaped Examples.match_no_array = true /\
   summary (aggregate_corpus [Examples.match_no_array]) = (1, 0) /\
   console (aggregate_corpus [Examples.match_no_array])
   = [ErrorProcessingFile "EUW1_5.json"]).
Proof.
  assert (Hcore : core (aggregate_corpus [Examples.broken_file; Examples.match_euw])
                  = core (aggregate_corpus [Examples.match_euw])).
  { destruct (rebuild_skips_malformed_from
                [Examples.broken_file; Examples.match_euw] initial initial eq_refl)
      as (H & _).
    exact H. }
  assert (Hsum : summary (aggregate_corpus [Examples.broken_file; Examples.match_euw])
                 = summary (aggregate_corpus [Examples.match_euw])).
  { unfold summary. unfold core in Hcore. congruence. }
  split; [split; vm_compute; reflexivity |].
  split.
  { split; [exact Hcore |]. intros [skipped H]. rewrite Hsum in H. lia. }
  split; split_and!; vm_compute; reflexivity.
Qed.

End RebuildClaims.

(** ** Import of new players *)

Section AddNewClaims.

Import AddNew Invariants.

Lemma start_keys (table : Store.table) (s : string) :
  Value s ∉ existingPuuids (start table) -> Store.keyed table !! s = None.
Proof.
  intros Hout. destruct (Store.keyed table !! s) as [r |] eqn:Hs; [| done].
  exfalso. apply Hout. unfold start. simpl. apply elem_of_app. left.
  apply list_elem_of_fmap. exists s. split; [done |].
  apply list_elem_of_fmap. exists (s, r). split; [done |].
  by apply elem_of_map_to_list.
Qed.

Lemma imported_start (table : Store.table) : imported table (start table).
Proof.
  unfold imported. simpl. split_and!.
  - by rewrite app_nil_r.
  - apply NoDup_nil_2.
  - intros k r H. by apply elem_of_nil in H.
  - done.
Qed.

Lemma imported_participant (table : Store.table) (st : state) (p : participant) :
  imported table st -> imported table (process_participant st p).
Proof.
  intros (Hset & Hnd & Hrows & Hcount).
  unfold process_participant. case_bool_decide as Hin; [done |].
  rewrite Hset in Hin. apply not_elem_of_app in Hin as [Hstart Hqueue].
  unfold imported. simpl. split_and!.
  - by rewrite Hset, fmap_app, app_assoc.
  - rewrite fmap_app. apply NoDup_app. split_and!; [done | | apply NoDup_singleton].
    intros x Hx ->%list_elem_of_singleton. done.
  - intros k r [Hold | [= -> ->]%list_elem_of_singleton]%elem_of_app; [by apply Hrows |].
    by split_and!.
  - rewrite length_app. simpl. lia.
Qed.

Lemma imported_entries (table : Store.table) (entries : list (option participant)) :
  forall st, imported table st -> imported table (fst (process_entries st entries)).
Proof.
  induction entries as [| [p |] entries IH]; intros st Hinv; simpl; [done | | done].
  by apply IH, imported_participant.
Qed.

Lemma imported_files (table : Store.table) (files : corpus) :
  forall st, imported table st -> imported table (fst (process_files files st)).
Proof.
  induction files as [| [file data] files IH]; intros st Hinv; simpl; [done |].
  destruct (entries_of data) as [entries |]; [| done].
  pose proof (imported_entries table entries st Hinv) as Hinv'.
  destruct (process_entries st entries) as [st' threw]. simpl in Hinv'.
  destruct threw; [done |]. by apply IH.
Qed.

(** *** The queued inserts *)

Lemma run_queue_cons e q t :
  run_queue (e :: q) t = run_queue q (Store.insert_new (key_column (fst e)) (snd e) t).
Proof. reflexivity. Qed.

Lemma insert_new_keeps k r t s r0 :
  Store.keyed t !! s = Some r0 -> Store.keyed (Store.insert_new k r t) !! s = Some r0.
Proof.
  intros Hs. unfold Store.insert_new. destruct k as [k |]; [| done].
  destruct (Store.keyed t !! k) eqn:Hk; [done |]. simpl.
  rewrite lookup_insert_ne; [done |]. intros ->. congruence.
Qed.

(** An insert never replaces a row. *)
Lemma run_queue_keeps q : forall t s r0,
  Store.keyed t !! s = Some r0 -> Store.keyed (run_queue q t) !! s = Some r0.
Proof.
  induction q as [| e q IH]; intros t s r0 Hs; [done |].
  rewrite run_queue_cons. by apply IH, insert_new_keeps.
Qed.

Lemma run_queue_unkeyed q : forall t,
  Store.unkeyed (run_queue q t) = Store.unkeyed t ++ queued_unkeyed q.
Proof.
  unfold queued_unkeyed.
  induction q as [| [k r] q IH]; intros t.
  - cbn [run_queue foldl]. by rewrite filter_nil, fmap_nil, app_nil_r.
  - rewrite run_queue_cons, IH. simpl fst. simpl snd.
    destruct (key_column k) as [s |] eqn:Hk.
    + rewrite filter_cons_False by (simpl; congruence).
      unfold Store.insert_new. by destruct (Store.keyed t !! s).
    + rewrite filter_cons_True by done. simpl.
      by rewrite <- app_assoc.
Qed.

Lemma run_queue_dom q : forall t,
  dom (Store.keyed (run_queue q t))
  = dom (Store.keyed t) ∪ list_to_set (queued_keys q).
Proof.
  unfold queued_keys.
  induction q as [| [k r] q IH]; intros t.
  - simpl. set_solver.
  - rewrite run_queue_cons, IH. simpl fst. simpl snd. simpl omap.
    destruct (key_column k) as [s |] eqn:Hk; simpl.
    + destruct (Store.keyed t !! s) eqn:Hs; simpl.
      * apply elem_of_dom_2 in Hs. set_solver.
      * rewrite dom_insert_L. set_solver.
    + done.
Qed.

Lemma key_column_string k s : key_column k = Some s <-> k = Value s.
Proof. destruct k; simpl; split; congruence. Qed.

(** A queued insert with a string key that is new and queued once
    stores its row. *)
Lemma run_queue_inserts q : forall t s r,
  NoDup (fst <$> q) -> (Value s, r) ∈ q -> Store.keyed t !! s = None ->
  Store.keyed (run_queue q t) !! s = Some r.
Proof.
  induction q as [| [k0 r0] q IH]; intros t s r Hnd Hin Hs.
  - by apply elem_of_nil in Hin.
  - rewrite fmap_cons in Hnd. apply NoDup_cons in Hnd as [Hk0 Hnd].
    rewrite run_queue_cons. simpl fst. simpl snd.
    apply elem_of_cons in Hin as [[= <- <-] | Hin].
    + apply run_queue_keeps. unfold Store.insert_new. simpl.
      rewrite Hs. simpl. by rewrite lookup_insert_eq.
    + apply IH; [done | done |].
      assert (Hne : k0 <> Value s).
      { intros ->. apply Hk0. apply list_elem_of_fmap. by exists (Value s, r). }
      unfold Store.insert_new. destruct (key_column k0) as [s0 |] eqn:Hk; [| done].
      destruct (Store.keyed t !! s0); [done |]. simpl.
      rewrite lookup_insert_ne; [done |].
      intros ->. apply key_column_string in Hk. done.
Qed.

(** C10.  [addNewPlayersFromMatches] never updates or deletes a row:
    every row of the table is in the table afterwards, unchanged, and
    in the same place among the rows without a puuid.  Every insert it
    queues is for a key that is not in the table, with match_count 1
    and the placeholder country, and no key is queued twice.  When the
    loop over the files ends, the queued inserts run: each string key
    holds its queued row, and the table holds the old rows and the
    queued rows and no others.  When the loop throws, no insert has run
    and the table is as it was. *)
Theorem addNewPlayers_keeps_existing_rows (files : corpus) (table : Store.table) :
  (forall s r, Store.keyed table !! s = Some r ->
     Store.keyed (table_after (addNewPlayersFromMatches files table)) !! s = Some r) /\
  (Store.unkeyed table
     `prefix_of` Store.unkeyed (table_after (addNewPlayersFromMatches files table))) /\
  (forall k r, (k, r) ∈ queue (final (addNewPlayersFromMatches files table)) ->
     (k ∉ existingPuuids (start table)) /\
     (forall s, k = Value s -> Store.keyed table !! s = None) /\
     Store.match_count r = 1 /\
     Store.country r = Some " ") /\
  NoDup (fst <$> queue (final (addNewPlayersFromMatches files table))) /\
  newPlayerCount (final (addNewPlayersFromMatches files table))
  = length (queue (final (addNewPlayersFromMatches files table))) /\
  (how (addNewPlayersFromMatches files table) = Completed ->
     (forall s r, (Value s, r) ∈ queue (final (addNewPlayersFromMatches files table)) ->
        Store.keyed (table_after (addNewPlayersFromMatches files table)) !! s = Some r) /\
     dom (Store.keyed (table_after (addNewPlayersFromMatches files table)))
     = dom (Store.keyed table)
       ∪ list_to_set (queued_keys (queue (final (addNewPlayersFromMatches files table)))) /\
     Store.unkeyed (table_after (addNewPlayersFromMatches files table))
     = Store.unkeyed table
       ++ queued_unkeyed (queue (final (addNewPlayersFromMatches files table)))) /\
  (forall file, how (addNewPlayersFromMatches files table) = Thrown file ->
     table_after (addNewPlayersFromMatches files table) = table).
Proof.
  unfold addNewPlayersFromMatches.
  pose proof (imported_files table files (start table) (imported_start table)) as Hinv.
  destruct (process_files files (start table)) as [st out]. simpl in Hinv. simpl.
  destruct Hinv as (Hset & Hnd & Hrows & Hcount).
  assert (Hnew : forall k r s, (k, r) ∈ queue st -> k = Value s ->
                               Store.keyed table !! s = None).
  { intros k r s Hin ->. apply start_keys. by apply (Hrows _ _ Hin). }
  split_and!.
  - intros s r Hs. destruct out; [by apply run_queue_keeps | done].
  - destruct out; [| done]. rewrite run_queue_unkeyed. by eexists.
  - intros k r Hin. destruct (Hrows k r Hin) as (H1 & H2 & H3).
    split_and!; [done | | done | done].
    intros s. by apply (Hnew k r s).
  - done.
  - done.
  - intros ->. split_and!.
    + intros s r Hin. apply run_queue_inserts; [done | done |].
      by apply (Hnew (Value s) r s).
    + apply run_queue_dom.
    + apply run_queue_unkeyed.
  - by intros file ->.
Qed.

Lemma addNewPlayers_keeps_existing_rows_witness :
  Store.keyed (table_after (addNewPlayersFromMatches
                              [Examples.match_euw; Examples.match_na1]
                              Examples.classified_table)) !! "p0"
  = Some Examples.classified_row.
Proof.
  destruct (addNewPlayers_keeps_existing_rows
              [Examples.match_euw; Examples.match_na1] Examples.classified_table)
    as (Hkeep & _).
  apply Hkeep. reflexivity.
Defined.

(** The sample run: the classified player p0 is skipped in both
    matches, the nine others are inserted once each; a run over a file
    that is not JSON throws and inserts nothing, also for the files
    before it. *)
Lemma addNewPlayers_sample_run :
  how (addNewPlayersFromMatches [Examples.match_euw; Examples.match_na1]
                                Examples.classified_table) = Completed /\
  fst <$> queue (final (addNewPlayersFromMatches
                          [Examples.match_euw; Examples.match_na1]
                          Examples.classified_table))
  = Value <$> ["p1"; "p2"; "p3"; "p4"; "p5"; "p6"; "p7"; "p8"; "p9"] /\
  how (addNewPlayersFromMatches [Examples.match_euw; Examples.broken_file]
                                Examples.classified_table)
  = Thrown "broken.json" /\
  length (queue (final (addNewPlayersFromMatches
                          [Examples.match_euw; Examples.broken_file]
                          Examples.classified_table))) = 9 /\
  table_after (addNewPlayersFromMatches [Examples.match_euw; Examples.broken_file]
                                        Examples.classified_table)
  = Examples.classified_table.
Proof. split_and!; vm_compute; reflexivity. Qed.

(** A participant without a puuid is inserted with a NULL key, and
    again by the next run: the set of the next run holds [null] for the
    stored row, not [undefined].  A document whose participants are the
    empty string is iterated without an entry. *)
Lemma addNewPlayers_missing_puuid :
  Store.names <$> Store.unkeyed
    (table_after (addNewPlayersFromMatches [Examples.match_anonymous] Store.empty))
  = [["Zed#undefined"]] /\
  Store.feedscore <$> Store.unkeyed
    (table_after (addNewPlayersFromMatches [Examples.match_anonymous] Store.empty))
  = [None] /\
  Store.names <$> Store.unkeyed
    (table_after
       (addNewPlayersFromMatches [Examples.match_anonymous]
          (table_after (addNewPlayersFromMatches [Examples.match_anonymous] Store.empty))))
  = [["Zed#undefined"]; ["Zed#undefined"]] /\
  how (addNewPlayersFromMatches [Examples.match_empty_text; Examples.match_euw]
                                Store.empty) = Completed.
Proof. split_and!; vm_compute; reflexivity. Qed.

End AddNewClaims.

(** ** The file system *)

Section FsFacts.

Import Fs.








End FsFacts.

(** ** The backend endpoints *)

Section ServerClaims.

Import Server Invariants.





(** *** /api/save-player *)

Lemma select_by_name_None (n : string) (table : list row) :
  select_by_name n table = None <-> n ∉ names <$> table.
Proof.
  unfold select_by_name.
  induction table as [| r table IH]; csimpl.
  - split; [intros _; apply not_elem_of_nil | done].
  - rewrite not_elem_of_cons.
    destruct (String.eqb_spec (names r) n) as [<- | Hne].
    + split; [done | intros [H _]; done].
    + rewrite IH. split; [intros H; split; [congruence | done] | tauto].
Qed.

Lemma select_by_name_Some (n : string) (table : list row) (r : row) :
  select_by_name n table = Some r -> r ∈ table /\ names r = n.
Proof.
  unfold select_by_name. intros H. apply find_some in H as [Hin Heq].
  split; [by apply list_elem_of_In | by apply String.eqb_eq].
Qed.

(** With one row per name, the row the SELECT finds is the only one
    the UPDATE changes. *)
Lemma update_by_name_unique (table : list row) : forall (i : nat) (r : row) f o c k,
  NoDup (names <$> table) ->
  table !! i = Some r ->
  update_by_name (names r) f o c k table
  = <[i := {| names := names r;
              feedscore := Store.sql_real f;
              opscore := Store.sql_real o;
              country := c;
              match_count := Some k |}]> table.
Proof.
  unfold update_by_name.
  induction table as [| r0 table IH]; intros i r f o c k Hnd Hi; [done |].
  rewrite fmap_cons in Hnd. apply NoDup_cons in Hnd as [Hr0 Hnd].
  destruct i as [| i]; simpl in Hi.
  - injection Hi as ->. simpl. rewrite String.eqb_refl. f_equal.
    clear IH. induction table as [| r1 table IH]; [done |].
    rewrite fmap_cons, not_elem_of_cons in Hr0. destruct Hr0 as [Hne Hr0].
    rewrite fmap_cons in Hnd. apply NoDup_cons in Hnd as [_ Hnd].
    simpl. apply not_eq_sym, String.eqb_neq in Hne. rewrite Hne.
    f_equal. by apply IH.
  - simpl.
    assert (Hne : names r0 <> names r).
    { intros Heq. apply Hr0. rewrite Heq. apply list_elem_of_fmap.
      exists r. split; [done |]. eapply list_elem_of_lookup_2. exact Hi. }
    apply String.eqb_neq in Hne. rewrite Hne. f_equal. by apply IH.
Qed.

Lemma select_by_name_unique (table : list row) (i : nat) (r : row) :
  NoDup (names <$> table) ->
  table !! i = Some r ->
  select_by_name (names r) table = Some r.
Proof.
  intros Hnd Hi.
  destruct (select_by_name (names r) table) as [r' |] eqn:Hsel.
  - apply select_by_name_Some in Hsel as [Hin Heq].
    apply list_elem_of_lookup in Hin as [j Hj].
    assert (i = j); [| congruence].
    eapply (NoDup_lookup _ _ _ (names r) Hnd); rewrite list_lookup_fmap.
    + by rewrite Hi.
    + rewrite Hj. simpl. by rewrite Heq.
  - apply select_by_name_None in Hsel. exfalso. apply Hsel.
    apply list_elem_of_fmap. exists r. split; [done |].
    eapply list_elem_of_lookup_2. exact Hi.
Qed.

Lemma upserted_nil : upserted [].
Proof. split; [apply NoDup_nil_2 | apply Forall_nil_2]. Qed.

Lemma count_or_one_positive (x : option nat) : 1 <= count_or_one x.
Proof. destruct x as [[| n] |]; simpl; lia. Qed.

Lemma count_or_one_stored (c : nat) : 1 <= c -> count_or_one (Some c) = c.
Proof. destruct c; simpl; [lia | done]. Qed.

(** The tables of the endpoint stay of the form [upserted]. *)
Lemma save_player_upserted (player : player_body) (table : list row) :
  upserted table -> upserted (fst (save_player player table)).
Proof.
  intros [Hnd Hpos]. unfold save_player.
  destruct (String.eqb (name player) ""); [done |].
  destruct (select_by_name (name player) table) as [r |] eqn:Hsel; simpl.
  - apply select_by_name_Some in Hsel as [Hin <-].
    apply list_elem_of_lookup in Hin as [i Hi].
    rewrite (update_by_name_unique table i r) by done.
    split.
    + rewrite list_fmap_insert. simpl.
      rewrite list_insert_id; [done |]. by rewrite list_lookup_fmap, Hi.
    + apply Forall_insert; [done |]. simpl. eexists. split; [done |].
      pose proof (count_or_one_positive (match_count r)). lia.
  - apply select_by_name_None in Hsel. split.
    + rewrite fmap_app. apply NoDup_app. split_and!; [done | | apply NoDup_singleton].
      csimpl. intros n Hn Hn'. apply list_elem_of_singleton in Hn' as ->. done.
    + apply Forall_app. split; [done |]. apply Forall_singleton. simpl. eauto.
Qed.

(** C6. One upsert of [/api/save-player]: for a name the table does not
    hold, a row is appended with match_count 1 and the posted feedscore
    and opscore as they are; for a name the table holds, the scores of
    its row become [(oldAverage * oldCount + newValue) / (oldCount + 1)]
    and its match_count grows by one, the other rows staying as they
    are.  No normalization takes part, and the table keeps the form of
    the tables this endpoint writes.  A finite score is stored as it
    is; a score that is NaN is stored as NULL, and a stored NULL counts
    as the average 0. *)
Theorem save_player_running_average (player : player_body) (table : list row) :
  name player <> "" ->
  upserted table ->
  (name player ∉ names <$> table ->
     fst (save_player player table)
     = table ++ [ {| names := name player;
                     feedscore := Store.sql_real (parseFloat (p_feedscore player));
                     opscore := Store.sql_real (parseFloat (p_opscore player));
                     country := p_country player;
                     match_count := Some 1 |} ]) /\
  (forall (i : nat) (r : row) (oldCount : nat),
     table !! i = Some r -> names r = name player -> match_count r = Some oldCount ->
     fst (save_player player table)
     = <[i := {| names := names r;
                 feedscore :=
                   Store.sql_real
                     (running_average (read_real (feedscore r)) oldCount
                                      (parseFloat (p_feedscore player)));
                 opscore :=
                   Store.sql_real
                     (running_average (read_real (opscore r)) oldCount
                                      (parseFloat (p_opscore player)));
                 country := p_country player;
                 match_count := Some (oldCount + 1) |}]> table) /\
  (forall x : num, is_finite x = true ->
     exists y : num, Store.sql_real x = Some y /\ read_real (Some y) = y /\
                     SFcompare y x = Some Eq) /\
  upserted (fst (save_player player table)).
Proof.
  intros Hname Hup. split_and!.
  - intros Hnew. apply select_by_name_None in Hnew.
    unfold save_player. apply String.eqb_neq in Hname. by rewrite Hname, Hnew.
  - intros i r oldCount Hi Hr Hc. destruct Hup as [Hnd Hpos].
    unfold save_player. apply String.eqb_neq in Hname. rewrite Hname, <- Hr.
    rewrite (select_by_name_unique table i r Hnd Hi).
    assert (Hcount : 1 <= oldCount).
    { rewrite Forall_forall in Hpos.
      destruct (Hpos r) as (c & Hc' & Hle); [eapply list_elem_of_lookup_2; exact Hi |].
      congruence. }
    rewrite Hc, (count_or_one_stored oldCount Hcount).
    simpl fst. by rewrite (update_by_name_unique table i r).
  - intros x Hx. destruct x as [s | | | s m e]; try discriminate Hx.
    + exists zero. by destruct s.
    + exists (S754_finite s m e). split_and!; [done | done |].
      rewrite SFcompare_rank. destruct s; simpl;
        rewrite ?Z.compare_refl, ?Pos.compare_refl; reflexivity.
  - by apply save_player_upserted.
Qed.

Lemma save_player_running_average_witness :
  fst (save_player
         {| name := "Alice#EUW"; p_feedscore := Some (of_nat 3);
            p_opscore := Some (of_nat 30); p_country := Some "Unknown" |}
         [ {| names := "Alice#EUW"; feedscore := Some (of_nat 1);
              opscore := Some (of_nat 10);
              country := Some "Unknown"; match_count := Some 1 |} ])
  = [ {| names := "Alice#EUW";
         feedscore := Store.sql_real (running_average (of_nat 1) 1 (of_nat 3));
         opscore := Store.sql_real (running_average (of_nat 10) 1 (of_nat 30));
         country := Some "Unknown";
         match_count := Some 2 |} ].
Proof.
  assert (Hup : upserted [ {| names := "Alice#EUW"; feedscore := Some (of_nat 1);
                              opscore := Some (of_nat 10);
                              country := Some "Unknown"; match_count := Some 1 |} ]).
  { split; [apply NoDup_singleton | apply Forall_singleton; simpl; eauto]. }
  destruct (save_player_running_average
              {| name := "Alice#EUW"; p_feedscore := Some (of_nat 3);
                 p_opscore := Some (of_nat 30); p_country := Some "Unknown" |}
              _ ltac:(discriminate) Hup) as (_ & Hknown & _).
  exact (Hknown 0 _ 1 eq_refl eq_refl eq_refl).
Defined.

(** The averages of the sample: a player posted with the scores 1 and
    10, then with 3 and 30, is stored with 2 and 20; a player posted
    without scores, then with 3 and 30, is stored with NULL scores, then
    with 1.5 and 15. *)
Lemma save_player_sample_averages :
  let post f o := {| name := "Alice#EUW"; p_feedscore := f; p_opscore := o;
                     p_country := Some "Unknown" |} in
  (fun r => (feedscore r, opscore r, match_count r)) <$>
    fst (save_player (post (Some (of_nat 3)) (Some (of_nat 30)))
           (fst (save_player (post (Some (of_nat 1)) (Some (of_nat 10))) [])))
  = [(Some (of_nat 2), Some (of_nat 20), Some 2)] /\
  (fun r => (feedscore r, opscore r, match_count r)) <$>
    fst (save_player (post None None) [])
  = [(None, None, Some 1)] /\
  (fun r => (feedscore r, opscore r, match_count r)) <$>
    fst (save_player (post (Some (of_nat 3)) (Some (of_nat 30)))
           (fst (save_player (post None None) [])))
  = [(Some (lit 1.5), Some (of_nat 15), Some 2)].
Proof. split_and!; vm_compute; reflexivity. Qed.

(** C4, as the code has it.  The full rebuild resolves identity by
    puuid: [playersMap] has one entry per observed puuid, whose
    match_count is the number of observations of the puuid and whose
    names are the display names observed with it.  The upsert of
    [/api/save-player] decides known or unknown by the display name: it
    appends a row exactly when no row has the posted name. *)
Theorem identity_resolution (files : corpus) :
  NoDup (fst <$> Rebuild.playersMap (Rebuild.aggregate_corpus files)) /\
  (forall k : string, k ∈ fst <$> Observed.observations files ->
     exists a : Rebuild.aggregate,
       Rebuild.map_get k (Rebuild.playersMap (Rebuild.aggregate_corpus files)) = Some a /\
       Rebuild.match_count a = Observed.occurrences k (Observed.observations files) /\
       (forall n : string,
          n ∈ Rebuild.names a <-> (k, n) ∈ Observed.observations files)) /\
  (forall (player : player_body) (table : list row), name player <> "" ->
     (name player ∉ names <$> table ->
        length (fst (save_player player table)) = S (length table)) /\
     (name player ∈ names <$> table ->
        length (fst (save_player player table)) = length table)).
Proof.
  destruct (aggregate_corpus_aggregates files) as (Hnd & Hnone & Hsome).
  split_and!.
  - exact Hnd.
  - intros k Hk.
    destruct (Rebuild.map_get k (Rebuild.playersMap (Rebuild.aggregate_corpus files)))
      as [a |] eqn:Hget.
    + exists a. destruct (Hsome k a Hget) as (Hc & Hn & _ & _). by split_and!.
    + apply Hnone in Hget. done.
  - intros player table Hname. apply String.eqb_neq in Hname.
    unfold save_player. rewrite Hname. split.
    + intros Hnew. apply select_by_name_None in Hnew. rewrite Hnew. simpl.
      rewrite length_app. simpl. lia.
    + intros Hknown.
      destruct (select_by_name (name player) table) as [r |] eqn:Hsel.
      * simpl. unfold update_by_name. by rewrite length_map.
      * apply select_by_name_None in Hsel. done.
Qed.

Lemma identity_resolution_witness :
  exists a : Rebuild.aggregate,
    Rebuild.map_get "p0"
      (Rebuild.playersMap
         (Rebuild.aggregate_corpus [Examples.match_euw; Examples.match_na1])) = Some a /\
    Rebuild.match_count a = 2 /\
    ("Alice#EUW" : string) ∈ Rebuild.names a /\
    ("Alice#NA1" : string) ∈ Rebuild.names a.
Proof.
  destruct (identity_resolution [Examples.match_euw; Examples.match_na1])
    as (_ & Hobs & _).
  destruct (Hobs "p0") as (a & Hget & Hcount & Hnames).
  { left. }
  exists a. split; [exact Hget |]. split; [rewrite Hcount; reflexivity |].
  split; apply Hnames.
  - left.
  - do 10 right. left.
Defined.

(** The claim of C4 fails on the code: posted for the two matches of
    the player p0, once as Alice#EUW and once as Alice#NA1, the upsert
    leaves two rows, each counting one match. *)
Lemma save_player_splits_renamed_player :
  (fun r => (names r, match_count r)) <$>
    fst (save_player (minimalPlayer (Examples.sample "p0" "Alice" "NA1"))
           (fst (save_player (minimalPlayer (Examples.sample "p0" "Alice" "EUW")) [])))
  = [("Alice#EUW", Some 1); ("Alice#NA1", Some 1)].
Proof. vm_compute. reflexivity. Qed.

End ServerClaims.

(** ** Further properties of the full rebuild and of the upsert *)

Section Further.

Import Rebuild Observed Server Invariants.

Lemma map_mutate_length f k m : length (map_mutate f k m) = length m.
Proof.
  rewrite <- (length_fmap fst (map_mutate f k m)), map_mutate_keys.
  apply length_fmap.
Qed.

Lemma totalPlayers_participant file d st p :
  totalPlayers st = length (playersMap st) ->
  totalPlayers (process_participant file d st p)
  = length (playersMap (process_participant file d st p)).
Proof.
  intros Hinv. unfold process_participant.
  destruct (key_string (puuid p)) as [k0 |]; [| done].
  destruct (map_get k0 (playersMap st)); simpl.
  - by rewrite map_mutate_length.
  - rewrite length_app. simpl. lia.
Qed.

Lemma totalPlayers_entries file d entries : forall st,
  totalPlayers st = length (playersMap st) ->
  totalPlayers (fst (process_entries file d st entries))
  = length (playersMap (fst (process_entries file d st entries))).
Proof.
  induction entries as [| [p |] entries IH]; intros st Hinv; simpl; [done | | done].
  by apply IH, totalPlayers_participant.
Qed.

Lemma totalPlayers_file st f :
  totalPlayers st = length (playersMap st) ->
  totalPlayers (process_file st f) = length (playersMap (process_file st f)).
Proof.
  intros Hinv. destruct f as [file data]. unfold process_file.
  destruct data as [| | [info |]]; try done.
  destruct (has_participants (participants info)); [| done]. cbn [negb].
  destruct (iterate (participants info)) as [entries |]; [| done].
  pose proof (totalPlayers_entries file (ndiv (to_number (gameDuration info)) (lit 60))
                entries (count_match st) Hinv) as H.
  destruct (process_entries _ _ _ entries) as [st' threw]. by destruct threw.
Qed.

(** The count of unique players in the summary of the full rebuild is
    the number of entries of [playersMap], which is the number of
    different puuids observed in the corpus. *)
Lemma totalPlayers_counts_puuids (files : corpus) :
  totalPlayers (aggregate_corpus files) = length (playersMap (aggregate_corpus files)) /\
  totalPlayers (aggregate_corpus files)
  = length (remove_dups (fst <$> observations files)).
Proof.
  assert (Hlen : totalPlayers (aggregate_corpus files)
                 = length (playersMap (aggregate_corpus files))).
  { unfold aggregate_corpus.
    assert (H : forall st, totalPlayers st = length (playersMap st) ->
                totalPlayers (foldl process_file st files)
                = length (playersMap (foldl process_file st files))).
    { induction files as [| f files IH]; intros st Hinv; simpl foldl; [done |].
      by apply IH, totalPlayers_file. }
    by apply H. }
  split; [exact Hlen |]. rewrite Hlen.
  destruct (aggregate_corpus_aggregates files) as (Hnd & _ & _).
  rewrite <- (length_fmap fst).
  apply Permutation_length, NoDup_Permutation; [done | apply NoDup_remove_dups |].
  intros k. rewrite elem_of_remove_dups. apply playersMap_keys_observed.
Qed.

(** After the full rebuild, the row of a puuid that occurs in the
    corpus holds the number of its observations as match_count, the
    display names it was observed with, each once, and no country. *)
Lemma rebuild_row_of_observed (files : corpus) (db : Store.table) (k : string) :
  k ∈ fst <$> observations files ->
  exists r : Store.row,
    Store.keyed (normalizePlayersByPuuid files db) !! k = Some r /\
    Store.match_count r = occurrences k (observations files) /\
    (forall n : string, n ∈ Store.names r <-> (k, n) ∈ observations files) /\
    NoDup (Store.names r) /\
    Store.country r = None.
Proof.
  intros Hin.
  destruct (rebuild_lookup_observed files db k Hin) as (a & Hget & Hrow & Hcountry).
  destruct (aggregate_corpus_aggregates files) as (_ & _ & Hsome).
  destruct (Hsome k a Hget) as (Hc & Hn & Hnd & _).
  exists (final_row a). by split_and!.
Qed.

Lemma rebuild_row_of_observed_witness :
  exists r : Store.row,
    Store.keyed (normalizePlayersByPuuid [Examples.match_euw; Examples.match_na1]
                                         Examples.classified_table) !! "p0" = Some r /\
    Store.match_count r
    = occurrences "p0" (observations [Examples.match_euw; Examples.match_na1]) /\
    (forall n : string,
       n ∈ Store.names r
       <-> ("p0", n) ∈ observations [Examples.match_euw; Examples.match_na1]) /\
    NoDup (Store.names r) /\
    Store.country r = None.
Proof.
  apply (rebuild_row_of_observed [Examples.match_euw; Examples.match_na1]
                                 Examples.classified_table "p0").
  left.
Defined.

(** Whatever is posted to [/api/save-player], starting from the empty
    table, the table holds one row per display name and every row
    counts at least one match. *)
Lemma save_player_one_row_per_name (posts : list player_body) :
  upserted (foldl (fun table player => fst (save_player player table)) [] posts).
Proof.
  assert (H : forall table, upserted table ->
              upserted (foldl (fun table player => fst (save_player player table))
                              table posts)).
  { induction posts as [| player posts IH]; intros table Hup; simpl foldl; [done |].
    by apply IH, save_player_upserted. }
  apply H, upserted_nil.
Qed.



End Further.
